(** * Mi Kettle: cipher engine, key derivation, status decoder, cached reader

    A shallow embedding of [custom_components/mikettle/mikettle.py].
    Python integers are [Z]; [bytes] and [bytearray] values are lists of
    integers, the range check of their constructors written out; a
    [datetime] is a count of microseconds inside the years 1 to 9999 and
    arithmetic that leaves that range raises [OverflowError]; an attribute
    read before it is assigned raises [AttributeError]; a raised exception
    is the [Raise] branch of [result]. *)

From Stdlib Require Import ZArith Lia Ascii.
From stdpp Require Import gmap strings list fin_maps.

Local Open Scope Z_scope.

(** ** Python values and exceptions *)

Inductive exn : Type :=
  | IndexError
  | KeyError
  | ZeroDivisionError
  | ValueError
  | TypeError
  | NameError
  | AttributeError
  | BTLEException
  | OverflowError
  | Exception (msg : string).

Inductive result (A : Type) : Type :=
  | Ok (a : A)
  | Raise (e : exn).
Arguments Ok {A} a.
Arguments Raise {A} e.

#[global] Instance result_ret : MRet result := λ A a, Ok a.
#[global] Instance result_bind : MBind result := λ A B f r,
  match r with
  | Ok a => f a
  | Raise e => Raise e
  end.

Definition is_Ok {A} (r : result A) : Prop := ∃ a, r = Ok a.
Definition raises {A} (r : result A) : Prop := ∃ e, r = Raise e.

(** [for x in l: a = f(a, x)], stopping at the first exception. *)
Fixpoint foldM {A B} (f : A → B → result A) (a : A) (l : list B) : result A :=
  match l with
  | [] => Ok a
  | x :: l' => a' ← f a x; foldM f a' l'
  end.

Abbreviation bytes := (list Z).

Definition len (b : bytes) : Z := Z.of_nat (length b).

Definition is_byte (x : Z) : Prop := 0 ≤ x < 256.
Definition is_byteb (x : Z) : bool := (0 <=? x) && (x <? 256).

(** [bytes([x0, x1, ...])]: every element must be in [range(256)]. *)
Definition mk_bytes (l : list Z) : result bytes :=
  if forallb is_byteb l then Ok l else Raise ValueError.

(** A subscript: negative indices count from the end. *)
Definition norm_index (l : bytes) (i : Z) : Z :=
  if i <? 0 then i + len l else i.

(** [l[i]] *)
Definition getitem (l : bytes) (i : Z) : result Z :=
  let k := norm_index l i in
  if (0 <=? k) && (k <? len l)
  then match l !! Z.to_nat k with
       | Some x => Ok x
       | None => Raise IndexError
       end
  else Raise IndexError.

(** [l[i] = v] on a [bytearray]: index check, then value check. *)
Definition setitem (l : bytes) (i v : Z) : result bytes :=
  let k := norm_index l i in
  if (0 <=? k) && (k <? len l)
  then if is_byteb v then Ok (<[Z.to_nat k := v]> l) else Raise ValueError
  else Raise IndexError.

(** [l[lo:hi]] for non-negative constant bounds. *)
Definition slice (l : bytes) (lo hi : nat) : bytes :=
  take (hi - lo)%nat (drop lo l).

(** [a % b] *)
Definition py_mod (a b : Z) : result Z :=
  if b =? 0 then Raise ZeroDivisionError else Ok (a mod b).

(** ** Cipher engine *)

(** [perm[i], perm[j] = perm[j], perm[i]]: the right-hand side is read
    first, then the two stores happen left to right. *)
Definition swap (perm : bytes) (i j : Z) : result bytes :=
  pj ← getitem perm j;
  pi ← getitem perm i;
  perm1 ← setitem perm i pj;
  setitem perm1 j pi.

Definition init_identity (perm : bytes) (i : Z) : result bytes :=
  b ← mk_bytes [Z.land i 255];
  Ok (perm ++ b).

Definition init_schedule (key : bytes) (st : Z * bytes) (i : Z)
  : result (Z * bytes) :=
  let '(j, perm) := st in
  pi ← getitem perm i;
  m ← py_mod i (len key);
  k ← getitem key m;
  let j := j + (pi + k) in
  let j := Z.land j 255 in
  perm' ← swap perm i j;
  Ok (j, perm').

Definition _cipherInit (key : bytes) : result bytes :=
  perm ← foldM init_identity [] (seqZ 0 256);
  '(_, perm') ← foldM (init_schedule key) (0, perm) (seqZ 0 256);
  Ok perm'.

(** Loop state of [_cipherCrypt]: [index1], [index2], the permutation
    buffer (mutated in place by the source) and [output]. *)
Record crypt_state : Type := CryptState {
  index1 : Z;
  index2 : Z;
  cperm : bytes;
  output : bytes
}.

Definition crypt_step (input : bytes) (st : crypt_state) (i : Z)
  : result crypt_state :=
  let index1 := index1 st + 1 in
  let index1 := Z.land index1 255 in
  p1 ← getitem (cperm st) index1;
  let index2 := index2 st + p1 in
  let index2 := Z.land index2 255 in
  perm ← swap (cperm st) index1 index2;
  a ← getitem perm index1;
  b ← getitem perm index2;
  let idx := a + b in
  let idx := Z.land idx 255 in
  x ← getitem input i;
  k ← getitem perm idx;
  let outputByte := Z.lxor x k in
  ob ← mk_bytes [Z.land outputByte 255];
  Ok (CryptState index1 index2 perm (output st ++ ob)).

(** The state after the loop of [_cipherCrypt] has run over the indices
    [idxs]. *)
Definition crypt_loop (input : bytes) (perm : bytes) (idxs : list Z)
  : result crypt_state :=
  foldM (crypt_step input) (CryptState 0 0 perm []) idxs.

(** Returns [output] together with the buffer as the call leaves it. *)
Definition _cipherCrypt (input perm : bytes) : result (bytes * bytes) :=
  st ← crypt_loop input perm (seqZ 0 (len input));
  Ok (output st, cperm st).

Definition cipher (key input : bytes) : result bytes :=
  perm ← _cipherInit key;
  '(out, _) ← _cipherCrypt input perm;
  Ok out.

(** ** Protocol constants *)

Definition _SESSION_START : bytes := [0x00; 0xBC; 0x43; 0xCD].
Definition _SESSION_END : bytes := [0x09; 0xAC; 0xBF; 0x93].
Definition _CONFIRMATION : bytes := [0xC9; 0x58; 0x9A; 0x36].

Definition _TOKEN : bytes :=
  [0xD5; 0xEB; 0xE8; 0xFF; 0x8B; 0x99; 0xA5; 0x27; 0x26; 0x14; 0x54; 0x12].
Definition _MAC : string := "78:11:DC:C2:F1:7F".

Definition _HANDLE_AUTH : Z := 37.
Definition _HANDLE_STATUS : Z := 61.

Definition MI_ACTION : string := "action".
Definition MI_MODE : string := "mode".
Definition MI_SET_TEMPERATURE : string := "set temperature".
Definition MI_CURRENT_TEMPERATURE : string := "current temperature".
Definition MI_KW_TYPE : string := "keep warm type".
Definition MI_KW_TIME : string := "keep warm time".

Definition MI_ACTION_MAP : gmap Z string :=
  {[ 0 := "idle"; 1 := "heating"; 2 := "cooling"; 3 := "keeping warm" ]}.

Definition MI_MODE_MAP : gmap Z string :=
  {[ 255 := "none"; 1 := "boil"; 3 := "keep warm" ]}.

Definition MI_KW_TYPE_MAP : gmap Z string :=
  {[ 0 := "warm up"; 1 := "cool down" ]}.

(** ** Key derivation *)

Definition mixA (mac : bytes) (productID : Z) : result bytes :=
  m0 ← getitem mac 0;
  m2 ← getitem mac 2;
  m5 ← getitem mac 5;
  m4 ← getitem mac 4;
  m5' ← getitem mac 5;
  m1 ← getitem mac 1;
  mk_bytes [m0; m2; m5; Z.land productID 0xff; Z.land productID 0xff;
            m4; m5'; m1].

Definition mixB (mac : bytes) (productID : Z) : result bytes :=
  m0 ← getitem mac 0;
  m2 ← getitem mac 2;
  m5 ← getitem mac 5;
  m4 ← getitem mac 4;
  m0' ← getitem mac 0;
  m5' ← getitem mac 5;
  mk_bytes [m0; m2; m5; Z.land (Z.shiftr productID 8) 0xff; m4; m0'; m5';
            Z.land productID 0xff].

(** One round of [ekey[i] ^= tick[i]]. *)
Definition ekey_xor (tick : bytes) (ekey : bytes) (i : Z) : result bytes :=
  e ← getitem ekey i;
  t ← getitem tick i;
  setitem ekey i (Z.lxor e t).

Definition generateEkey (token challenge : bytes) : result bytes :=
  tick ← cipher token challenge;
  ekey ← mk_bytes token;
  foldM (ekey_xor tick) ekey (seqZ 0 3).

Definition challengeResponse (ekey : bytes) : result bytes :=
  cipher ekey _SESSION_END.

Definition checkConfirmation (ekey confirmation : bytes) : result bool :=
  c ← cipher ekey confirmation;
  let actual := slice c 0 4 in
  Ok (bool_decide (actual = _CONFIRMATION)).

(** ** Status decoder *)

(** The values stored in the reading: strings and integers. *)
Inductive pyval : Type :=
  | PStr (s : string)
  | PInt (z : Z).

#[global] Instance pyval_eq_dec : EqDecision pyval.
Proof. solve_decision. Defined.

(** [d[k]] on a [dict] *)
Definition dict_get {K V} `{Countable K} (d : gmap K V) (k : K) : result V :=
  match d !! k with
  | Some v => Ok v
  | None => Raise KeyError
  end.

Definition bytes_to_int_step (result : Z) (b : Z) : Z := result * 256 + b.

Definition bytes_to_int (bs : bytes) : Z :=
  fold_left bytes_to_int_step bs 0.

Definition _parse_data (data : bytes) : result (gmap string pyval) :=
  let res : gmap string pyval := ∅ in
  d0 ← getitem data 0;
  action ← dict_get MI_ACTION_MAP d0;
  let res := <[MI_ACTION := PStr action]> res in
  d1 ← getitem data 1;
  mode ← dict_get MI_MODE_MAP d1;
  let res := <[MI_MODE := PStr mode]> res in
  d4 ← getitem data 4;
  let res := <[MI_SET_TEMPERATURE := PInt d4]> res in
  d5 ← getitem data 5;
  let res := <[MI_CURRENT_TEMPERATURE := PInt d5]> res in
  d6 ← getitem data 6;
  kwtype ← dict_get MI_KW_TYPE_MAP d6;
  let res := <[MI_KW_TYPE := PStr kwtype]> res in
  let res := <[MI_KW_TIME := PInt (bytes_to_int (slice data 7 8))]> res in
  Ok res.

(** ** Device handle, BLE link and clock *)

(** Instants and durations are counted in microseconds, the resolution
    of [datetime] and [timedelta]; an instant is its distance from
    1970-01-01 00:00:00. *)
Definition timedelta_seconds (s : Z) : Z := s * 1000000.

(** [datetime.min] and [datetime.max]: the years 1 to 9999. *)
Definition datetime_min : Z := -62135596800000000.
Definition datetime_max : Z := 253402300799999999.

Definition datetime_in_range (t : Z) : Prop := datetime_min ≤ t ≤ datetime_max.
Definition datetime_in_rangeb (t : Z) : bool :=
  (datetime_min <=? t) && (t <=? datetime_max).

(** [t - d] and [t + d] for a [datetime] [t] and a [timedelta] [d]: a
    result outside the range of [datetime] is an [OverflowError]. *)
Definition datetime_sub (t d : Z) : result Z :=
  if datetime_in_rangeb (t - d) then Ok (t - d) else Raise OverflowError.
Definition datetime_add (t d : Z) : result Z :=
  if datetime_in_rangeb (t + d) then Ok (t + d) else Raise OverflowError.

(** [timedelta(seconds=s)]: at most 999999999 days either way. *)
Definition timedelta (s : Z) : result Z :=
  let d := timedelta_seconds s in
  if (-(999999999 * 86400000000) <=? d) && (d <? 1000000000 * 86400000000)
  then Ok d
  else Raise OverflowError.

(** [now - ttl + timedelta(seconds=300)], evaluated left to right. *)
Definition backoff_timestamp (now ttl : Z) : result Z :=
  limit ← datetime_sub now ttl;
  datetime_add limit (timedelta_seconds 300).

(** The attribute [_p] and the flag [_connected], held together.
    [connect] assigns [_p] before it sets the flag and nothing deletes
    [_p], so the flag is never set on a handle that lacks the attribute. *)
Inductive link_state : Type :=
  | NoPeripheral  (* [_p] never assigned, [_connected] is [False] *)
  | Detached      (* [_p] assigned, [_connected] is [False] *)
  | Attached.     (* [_p] assigned, [_connected] is [True] *)

Record MiKettle : Type := mkMiKettle {
  _mac : string;
  _reversed_mac : bytes;
  _cache : option (gmap string pyval);
  _cache_timeout : Z;
  _last_read : option Z;
  _ekey : option bytes;
  _challenging : bool;
  _confirming : bool;
  _link : link_state;
  _authed : bool;
  _product_id : Z;
  _token : bytes
}.

Definition set_cache (v : option (gmap string pyval)) (k : MiKettle) : MiKettle :=
  mkMiKettle (_mac k) (_reversed_mac k) v (_cache_timeout k) (_last_read k)
    (_ekey k) (_challenging k) (_confirming k) (_link k) (_authed k)
    (_product_id k) (_token k).
Definition set_last_read (v : option Z) (k : MiKettle) : MiKettle :=
  mkMiKettle (_mac k) (_reversed_mac k) (_cache k) (_cache_timeout k) v
    (_ekey k) (_challenging k) (_confirming k) (_link k) (_authed k)
    (_product_id k) (_token k).
Definition set_ekey (v : option bytes) (k : MiKettle) : MiKettle :=
  mkMiKettle (_mac k) (_reversed_mac k) (_cache k) (_cache_timeout k)
    (_last_read k) v (_challenging k) (_confirming k) (_link k)
    (_authed k) (_product_id k) (_token k).
Definition set_challenging (v : bool) (k : MiKettle) : MiKettle :=
  mkMiKettle (_mac k) (_reversed_mac k) (_cache k) (_cache_timeout k)
    (_last_read k) (_ekey k) v (_confirming k) (_link k) (_authed k)
    (_product_id k) (_token k).
Definition set_confirming (v : bool) (k : MiKettle) : MiKettle :=
  mkMiKettle (_mac k) (_reversed_mac k) (_cache k) (_cache_timeout k)
    (_last_read k) (_ekey k) (_challenging k) v (_link k) (_authed k)
    (_product_id k) (_token k).
Definition set_link (v : link_state) (k : MiKettle) : MiKettle :=
  mkMiKettle (_mac k) (_reversed_mac k) (_cache k) (_cache_timeout k)
    (_last_read k) (_ekey k) (_challenging k) (_confirming k) v (_authed k)
    (_product_id k) (_token k).
Definition set_authed (v : bool) (k : MiKettle) : MiKettle :=
  mkMiKettle (_mac k) (_reversed_mac k) (_cache k) (_cache_timeout k)
    (_last_read k) (_ekey k) (_challenging k) (_confirming k) (_link k)
    v (_product_id k) (_token k).

(** [self._connected] *)
Definition _connected (k : MiKettle) : bool :=
  match _link k with
  | Attached => true
  | _ => false
  end.

(** Whether [self._p] exists. *)
Definition has_p (k : MiKettle) : bool :=
  match _link k with
  | NoPeripheral => false
  | _ => true
  end.

(** [self._p = Peripheral(...)] *)
Definition assign_p (k : MiKettle) : MiKettle :=
  set_link (match _link k with
            | NoPeripheral => Detached
            | l => l
            end) k.

(** [self._connected = v]; [True] is only ever assigned after [_p]. *)
Definition set_connected (v : bool) (k : MiKettle) : MiKettle :=
  set_link (if v then Attached
            else match _link k with
                 | Attached => Detached
                 | l => l
                 end) k.

(** The operations of the [bluepy] peripheral the handle calls. *)
Inductive ble_call : Type :=
  | Peripheral
  | getServiceByUUID
  | getDescriptors
  | descriptor_write
  | writeCharacteristic
  | waitForNotifications
  | readCharacteristic.

(** What the link does during one call: time passes, notifications are
    handed to the delegate in order, and the call then returns or raises
    ([failure]; an index past the end of a descriptor list counts as
    one). *)
Record link_event : Type := LinkEvent {
  elapsed : Z;
  notifications : list (Z * option bytes);
  failure : option exn
}.

(** The environment: the wall clock, the behaviour of the link on the
    calls still to come (a link with nothing left is unreachable), and
    the calls made so far, most recent first. *)
Record World : Type := mkWorld {
  clock : Z;
  pending : list link_event;
  calls : list ble_call
}.

(** Methods of the handle: they read and write the handle and the
    environment, and return or raise. A raise keeps the writes made
    before it. *)
Definition M (A : Type) : Type := MiKettle → World → result A * MiKettle * World.

#[global] Instance M_ret : MRet M := λ A a self w, (Ok a, self, w).
#[global] Instance M_bind : MBind M := λ A B f m self w,
  match m self w with
  | (Ok a, self', w') => f a self' w'
  | (Raise e, self', w') => (Raise e, self', w')
  end.

Definition get_self : M MiKettle := λ self w, (Ok self, self, w).
Definition modify (f : MiKettle → MiKettle) : M unit :=
  λ self w, (Ok (), f self, w).
Definition raise {A} (e : exn) : M A := λ self w, (Raise e, self, w).
Definition lift {A} (r : result A) : M A := λ self w, (r, self, w).
Definition datetime_now : M Z := λ self w, (Ok (clock w), self, w).

(** [try: body except Exception as error: handler(error)] *)
Definition try_except {A} (body : M A) (handler : exn → M A) : M A :=
  λ self w,
  match body self w with
  | (Ok a, self', w') => (Ok a, self', w')
  | (Raise e, self', w') => handler e self' w'
  end.

(** [for x in l: body(x)] *)
Fixpoint for_each {A} (body : A → M unit) (l : list A) : M unit :=
  match l with
  | [] => mret ()
  | x :: l' => body x;; for_each body l'
  end.

(** ** Cached reader and notification handler *)

Definition clear_cache : M unit :=
  modify (set_cache None);;
  modify (set_last_read None).

Definition cache_available : M bool :=
  self ← get_self;
  mret (bool_decide (_cache self ≠ None)).

Definition checkPairing (self : MiKettle) (data : bytes) : result bool :=
  kb ← mixB (_reversed_mac self) (_product_id self);
  ka ← mixA (_reversed_mac self) (_product_id self);
  inner ← cipher ka data;
  outer ← cipher kb inner;
  Ok (bool_decide (outer ≠ _token self)).

Definition handleNotification (cHandle : Z) (data : option bytes) : M unit :=
  if bool_decide (cHandle = _HANDLE_AUTH) then
    self ← get_self;
    if _challenging self then
      modify (set_challenging false);;
      ekey ← lift (match data with
                   | Some d => generateEkey (_token self) d
                   | None => _cipherInit (_token self);; Raise TypeError
                   end);
      modify (set_ekey (Some ekey))
    else if _confirming self then
      modify (set_confirming false);;
      ok ← lift (match _ekey self, data with
                 | Some ekey, Some d => checkConfirmation ekey d
                 | Some ekey, None => _cipherInit ekey;; Raise TypeError
                 | None, _ => Raise TypeError
                 end);
      if negb ok
      then raise (Exception "Unexpected response during confirmation.")
      else mret ()
    else
      (* the bare name [checkPairing] is bound nowhere in the module *)
      raise NameError
  else if bool_decide (cHandle = _HANDLE_STATUS) then
    match data with
    | None => mret ()
    | Some d =>
        res ← lift (_parse_data d);
        modify (set_cache (Some res));;
        avail ← cache_available;
        if (avail : bool) then
          now ← datetime_now;
          modify (set_last_read (Some now))
        else
          now ← datetime_now;
          self ← get_self;
          backoff ← lift (backoff_timestamp now (_cache_timeout self));
          modify (set_last_read (Some backoff))
    end
  else
    match data with
    | None => raise AttributeError
    | Some _ => mret ()
    end.

(** One call into the peripheral. *)
Definition link_call (c : ble_call) : M unit :=
  λ self w,
  match pending w with
  | [] => (Raise BTLEException, self, mkWorld (clock w) [] (c :: calls w))
  | ev :: rest =>
      (for_each (λ n : Z * option bytes, handleNotification n.1 n.2)
         (notifications ev);;
       match failure ev return M unit with
       | Some e => raise e
       | None => mret ()
       end)
        self (mkWorld (clock w + elapsed ev) rest (c :: calls w))
  end.

(** [self._p]: an [AttributeError] until [connect] has assigned it. *)
Definition get_p : M unit :=
  self ← get_self;
  if has_p self then mret () else raise AttributeError.

(** [self._p.method(...)]: the attribute is looked up, then the call goes
    to the peripheral. *)
Definition peripheral_call (c : ble_call) : M unit :=
  get_p;;
  link_call c.

Definition connect : M unit :=
  self ← get_self;
  if negb (_connected self) then
    link_call Peripheral;;
    modify assign_p;;
    get_p;;
    modify (set_connected true)
  else mret ().

Definition auth : M unit :=
  self ← get_self;
  if negb (_authed self) then
    peripheral_call getServiceByUUID;;
    link_call getDescriptors;;
    link_call descriptor_write;;
    modify (set_challenging true);;
    peripheral_call writeCharacteristic;;
    peripheral_call waitForNotifications;;
    modify (set_confirming true);;
    get_p;;
    self ← get_self;
    lift (match _ekey self with
          | Some ekey => challengeResponse ekey
          | None => Raise TypeError
          end);;
    link_call writeCharacteristic;;
    peripheral_call waitForNotifications;;
    peripheral_call readCharacteristic;;
    modify (set_authed true)
  else mret ().

Definition subscribeToData : M unit :=
  peripheral_call getServiceByUUID;;
  link_call getDescriptors;;
  link_call descriptor_write.

(** The body of the [try] in [fill_cache]. *)
Definition fill_cycle : M unit :=
  connect;;
  auth;;
  subscribeToData;;
  peripheral_call waitForNotifications.

(** An exception raised in the handler itself leaves [fill_cache]. *)
Definition fill_cache : M unit :=
  try_except fill_cycle (λ error,
    now ← datetime_now;
    self ← get_self;
    backoff ← lift (backoff_timestamp now (_cache_timeout self));
    modify (set_last_read (Some backoff));;
    modify (set_connected false);;
    modify (set_authed false)).

(** The statement after the locked block of [parameter_value]. *)
Definition read_cache (parameter : string) : M pyval :=
  avail ← cache_available;
  if (avail : bool) then
    self ← get_self;
    lift (match _cache self with
          | Some c => dict_get c parameter
          | None => Raise TypeError
          end)
  else
    self ← get_self;
    raise (Exception ("Could not read data from MiKettle " +:+ _mac self)).

(** The lock of the source serialises callers; one caller at a time is
    modelled here. *)
Definition parameter_value (parameter : string) (read_cached : bool) : M pyval :=
  self ← get_self;
  stale ← (if negb read_cached || bool_decide (_last_read self = None)
           then mret true
           else
             now ← datetime_now;
             limit ← lift (datetime_sub now (_cache_timeout self));
             mret (match _last_read self with
                   | Some last => limit >? last
                   | None => false
                   end));
  (if (stale : bool) then fill_cache else mret ());;
  read_cache parameter.

(** ** Construction *)

(** [s.split(":")] *)
Fixpoint split_colon (s : string) : list string :=
  match s with
  | EmptyString => [EmptyString]
  | String c s' =>
      if bool_decide (c = ":"%char) then EmptyString :: split_colon s'
      else match split_colon s' with
           | p :: ps => String c p :: ps
           | [] => [String c EmptyString]
           end
  end.

Definition hex_digit (c : ascii) : option Z :=
  let n := Z.of_N (Ascii.N_of_ascii c) in
  if (48 <=? n) && (n <=? 57) then Some (n - 48)
  else if (97 <=? n) && (n <=? 102) then Some (n - 87)
  else if (65 <=? n) && (n <=? 70) then Some (n - 55)
  else None.

Definition is_space (c : ascii) : bool :=
  let n := Z.of_N (Ascii.N_of_ascii c) in
  (n =? 32) || ((9 <=? n) && (n <=? 13)).

(** [bytearray.fromhex(s)]: two hexadecimal digits per byte, white space
    allowed between the bytes. *)
Fixpoint fromhex (s : string) : result bytes :=
  match s with
  | EmptyString => Ok []
  | String c s' =>
      if is_space c then fromhex s'
      else match s' with
           | EmptyString => Raise ValueError
           | String d s'' =>
               match hex_digit c, hex_digit d with
               | Some h, Some l => rest ← fromhex s''; Ok (h * 16 + l :: rest)
               | _, _ => Raise ValueError
               end
           end
  end.

Definition reverseMac (mac : string) : result bytes :=
  let parts := split_colon mac in
  let leng := Z.of_nat (length parts) in
  foldM (λ (reversedMac : bytes) (i : Z),
           part ← match parts !! Z.to_nat (leng - i) with
                  | Some p => Ok p
                  | None => Raise IndexError
                  end;
           b ← fromhex part;
           Ok (reversedMac ++ b))
        [] (seqZ 1 leng).

Definition __init__ (mac : string) (product_id cache_timeout : Z)
    (token : bytes) : result MiKettle :=
  reversed ← reverseMac mac;
  ttl ← timedelta cache_timeout;
  Ok (mkMiKettle mac reversed None ttl None None false false NoPeripheral
        false product_id token).

(** The handle built by [MiKettle()] with every argument at its default. *)
Definition default_kettle : MiKettle :=
  mkMiKettle _MAC [0x7F; 0xF1; 0xC2; 0xDC; 0x11; 0x78] None
    (timedelta_seconds 600) None None false false NoPeripheral false 131
    _TOKEN.

(** ** Specification predicates *)

(** A buffer holding each of the values 0..255 exactly once. *)
Definition is_perm256 (perm : bytes) : Prop := perm ≡ₚ seqZ 0 256.

(** The byte [_cipherCrypt] appends for input byte [x] and keystream byte
    [k]. *)
Definition crypt_byte (x k : Z) : Z := Z.land (Z.lxor x k) 255.

(** The chained decryption [checkPairing] compares with the token. *)
Definition pairing_chain (self : MiKettle) (data : bytes) : result bytes :=
  kb ← mixB (_reversed_mac self) (_product_id self);
  ka ← mixA (_reversed_mac self) (_product_id self);
  inner ← cipher ka data;
  cipher kb inner.

(** The three components of what a method call leaves behind. *)
Definition result_of {A} (x : result A * MiKettle * World) : result A := x.1.1.
Definition state_of {A} (x : result A * MiKettle * World) : MiKettle := x.1.2.
Definition world_of {A} (x : result A * MiKettle * World) : World := x.2.



(** [now - lastRead <= ttl], for a timestamp that is present. *)
Definition fresh (self : MiKettle) (now : Z) : Prop :=
  ∃ last, _last_read self = Some last ∧ now - last ≤ _cache_timeout self.

(** Between [w] and [w'] at least one call went to the peripheral. *)
Definition link_contacted (w w' : World) : Prop :=
  ∃ c cs, calls w' = cs ++ c :: calls w.

(** What [parameter_value] hands back from the cache as it stands. *)
Definition cached_field (parameter : string) (self : MiKettle) : result pyval :=
  match _cache self with
  | Some c => dict_get c parameter
  | None => Raise (Exception ("Could not read data from MiKettle " +:+ _mac self))
  end.

(** [parameter_value(parameter, True)] returns a field of the reading it
    finds cached and touches neither the handle nor the link. *)
Definition served_from_cache (parameter : string) (self : MiKettle) (w : World)
  : Prop :=
  ∃ c v, _cache self = Some c ∧ c !! parameter = Some v ∧
         parameter_value parameter true self w = (Ok v, self, w).

(** [parameter_value(parameter, True)] runs [fill_cache], which reaches
    for the peripheral. *)
Definition fill_triggered (parameter : string) (self : MiKettle) (w : World)
  : Prop :=
  parameter_value parameter true self w
  = (fill_cache;; read_cache parameter) self w
  ∧ link_contacted w (world_of (parameter_value parameter true self w)).

(** Every call of method [m] relates the handle and environment it
    starts from to those it leaves by [P]. *)
Definition post (P : MiKettle → World → MiKettle → World → Prop)
    {A} (m : M A) : Prop :=
  ∀ self w, P self w (state_of (m self w)) (world_of (m self w)).


(** The log of calls only grows. *)
Definition calls_extended (self : MiKettle) (w : World)
    (self' : MiKettle) (w' : World) : Prop :=
  ∃ cs, calls w' = cs ++ calls w.

(** A link that cannot be reached, at clock reading [t]. *)
Definition unreachable_link (t : Z) : World := mkWorld t [] [].

(** The default handle after a first read attempted over an unreachable
    link at clock reading 1000 s. *)
Definition kettle_after_failed_read : MiKettle :=
  state_of (parameter_value MI_ACTION true default_kettle
              (unreachable_link (timedelta_seconds 1000))).

(** The handle built by [MiKettle(cache_timeout=70000000000)], a ttl of
    some 2218 years. *)
Definition long_ttl_kettle : MiKettle :=
  mkMiKettle _MAC [0x7F; 0xF1; 0xC2; 0xDC; 0x11; 0x78] None
    (timedelta_seconds 70000000000) None None false false NoPeripheral false
    131 _TOKEN.

(** The default handle once [connect] has returned: [_p] is assigned and
    the connected flag is set. *)
Definition connected_kettle : MiKettle :=
  set_connected true (assign_p default_kettle).

(** The freshness test of [parameter_value] can be evaluated at [now]:
    there is no timestamp to compare with, or [now - ttl] is a
    [datetime]. *)
Definition test_defined (self : MiKettle) (now : Z) : Prop :=
  _last_read self = None ∨ datetime_in_range (now - _cache_timeout self).

(** A reading as [_parse_data] builds it. *)
Definition sample_reading : gmap string pyval :=
  {[ MI_ACTION := PStr "heating";
     MI_MODE := PStr "boil";
     MI_SET_TEMPERATURE := PInt 65;
     MI_CURRENT_TEMPERATURE := PInt 23;
     MI_KW_TYPE := PStr "warm up";
     MI_KW_TIME := PInt 0 ]}.

(** ** Name and firmware version *)

Definition _HANDLE_READ_FIRMWARE_VERSION : Z := 26.
Definition _HANDLE_READ_NAME : Z := 20.

(** [''.join(chr(n) for n in bs)], for the byte values a characteristic
    holds: one character per byte, with the byte as its code. *)
Fixpoint join_chr (bs : bytes) : string :=
  match bs with
  | [] => EmptyString
  | n :: bs' => String (ascii_of_N (Z.to_N n)) (join_chr bs')
  end.

(** [self._p.readCharacteristic(handle)]: one call into the peripheral,
    which answers [reply] when it returns. *)
Definition readCharacteristic_reply (reply : bytes) : M bytes :=
  peripheral_call readCharacteristic;;
  mret reply.

(** [name()], the peripheral answering the read with [reply]. *)
Definition name (reply : bytes) : M string :=
  connect;;
  auth;;
  name ← readCharacteristic_reply reply;
  if bool_decide (name = [])
  then
    self ← get_self;
    raise (Exception ("Could not read NAME using handle 20 from Mi Kettle "
                      +:+ _mac self))
  else mret (join_chr name).

(** [firmware_version()], the peripheral answering the read with [reply]. *)
Definition firmware_version (reply : bytes) : M string :=
  connect;;
  auth;;
  firmware_version ← readCharacteristic_reply reply;
  if bool_decide (firmware_version = [])
  then
    self ← get_self;
    raise (Exception
             ("Could not read FIRMWARE_VERSION using handle 26 from Mi Kettle "
              +:+ _mac self))
  else mret (join_chr firmware_version).

(** ** Link scripts and further predicates *)

(** A call during which [el] microseconds pass and nothing else happens. *)
Definition quiet (el : Z) : link_event := LinkEvent el [] None.

(** A call during which one notification arrives. *)
Definition notifying (el : Z) (cHandle : Z) (data : bytes) : link_event :=
  LinkEvent el [(cHandle, Some data)] None.

(** The identity of the device and the ttl are what they were. *)
Definition same_identity (self : MiKettle) (w : World)
    (self' : MiKettle) (w' : World) : Prop :=
  _mac self' = _mac self ∧
  _reversed_mac self' = _reversed_mac self ∧
  _product_id self' = _product_id self ∧
  _token self' = _token self ∧
  _cache_timeout self' = _cache_timeout self.

(** A peripheral [_p] that the handle has is never taken away. *)
Definition keeps_p (self : MiKettle) (w : World)
    (self' : MiKettle) (w' : World) : Prop :=
  has_p self = true → has_p self' = true.

(** The characters of a string, as their codes. *)
Fixpoint codes (s : string) : bytes :=
  match s with
  | EmptyString => []
  | String c s' => Z.of_N (N_of_ascii c) :: codes s'
  end.

(** [":".join(parts)] *)
Fixpoint join_colon (parts : list string) : string :=
  match parts with
  | [] => EmptyString
  | [p] => p
  | p :: ps => p +:+ String ":"%char (join_colon ps)
  end.

(** No [":"] among the characters of [s]. *)
Fixpoint no_colon (s : string) : bool :=
  match s with
  | EmptyString => true
  | String c s' => negb (bool_decide (c = ":"%char)) && no_colon s'
  end.

(** What one round of the loop of [reverseMac] does with a group. *)
Definition extend_fromhex (reversedMac : bytes) (part : string) : result bytes :=
  b ← fromhex part;
  Ok (reversedMac ++ b).

(** * Properties *)

(** ** Python primitives *)

Lemma land_255_byte x : is_byte (Z.land x 255).
Proof.
  unfold is_byte. change 255 with (Z.ones 8).
  rewrite Z.land_ones by lia. pose proof (Z.mod_pos_bound x (2 ^ 8)). lia.
Qed.

Lemma is_byteb_spec x : is_byteb x = true ↔ is_byte x.
Proof. unfold is_byteb, is_byte. rewrite andb_true_iff. lia. Qed.

Lemma mk_bytes_ok l : Forall is_byte l → mk_bytes l = Ok l.
Proof.
  intros Hl. unfold mk_bytes.
  replace (forallb is_byteb l) with true; [done|].
  symmetry. apply forallb_forall. intros x Hx.
  apply is_byteb_spec. rewrite Forall_forall in Hl.
  apply Hl, list_elem_of_In, Hx.
Qed.

Lemma norm_index_nonneg l i : 0 ≤ i → norm_index l i = i.
Proof. intros. unfold norm_index. destruct (Z.ltb_spec i 0); lia. Qed.

Lemma getitem_lookup l i x :
  0 ≤ i → l !! Z.to_nat i = Some x → getitem l i = Ok x.
Proof.
  intros Hi Hx. unfold getitem. rewrite norm_index_nonneg by done.
  pose proof (lookup_lt_Some _ _ _ Hx). unfold len.
  destruct (Z.leb_spec 0 i); [|lia].
  destruct (Z.ltb_spec i (Z.of_nat (length l))); [|lia]. simpl.
  by rewrite Hx.
Qed.

Lemma getitem_in_range l i :
  0 ≤ i < len l → ∃ x, l !! Z.to_nat i = Some x ∧ getitem l i = Ok x.
Proof.
  intros Hi. unfold len in Hi.
  destruct (lookup_lt_is_Some_2 l (Z.to_nat i)) as [x Hx]; [lia|].
  exists x. split; [done|]. apply getitem_lookup; [lia|done].
Qed.

Lemma getitem_out_of_range l i : len l ≤ i → getitem l i = Raise IndexError.
Proof.
  intros Hi. unfold getitem, len in *. rewrite norm_index_nonneg by lia.
  destruct (Z.ltb_spec i (Z.of_nat (length l))); [lia|].
  by rewrite andb_false_r.
Qed.

Lemma setitem_in_range l i v :
  0 ≤ i < len l → is_byte v → setitem l i v = Ok (<[Z.to_nat i := v]> l).
Proof.
  intros Hi Hv. unfold setitem. rewrite norm_index_nonneg by lia.
  destruct (Z.leb_spec 0 i); [|lia].
  destruct (Z.ltb_spec i (len l)); [|lia]. simpl.
  apply is_byteb_spec in Hv. by rewrite Hv.
Qed.

(** ** The permutation buffer *)

Lemma is_perm256_length perm : is_perm256 perm → len perm = 256.
Proof.
  intros H. unfold len. rewrite (Permutation_length H), length_seqZ. lia.
Qed.

Lemma is_perm256_bytes perm : is_perm256 perm → Forall is_byte perm.
Proof.
  intros H. unfold is_perm256 in H. rewrite H.
  apply Forall_seqZ. unfold is_byte. lia.
Qed.

Lemma is_perm256_getitem perm i :
  is_perm256 perm → is_byte i →
  ∃ x, perm !! Z.to_nat i = Some x ∧ getitem perm i = Ok x ∧ is_byte x.
Proof.
  intros Hp Hi.
  destruct (getitem_in_range perm i) as (x & Hx & Hg).
  { rewrite is_perm256_length by done. exact Hi. }
  exists x. repeat split; try done.
  - by apply (Forall_lookup_1 _ _ _ _ (is_perm256_bytes _ Hp) Hx).
  - by apply (Forall_lookup_1 _ _ _ _ (is_perm256_bytes _ Hp) Hx).
Qed.

Lemma swap_is_perm256 perm i j :
  is_perm256 perm → is_byte i → is_byte j →
  ∃ perm', swap perm i j = Ok perm' ∧ is_perm256 perm'.
Proof.
  intros Hp Hi Hj.
  destruct (is_perm256_getitem perm i Hp Hi) as (pi & Hli & Hgi & Hbi).
  destruct (is_perm256_getitem perm j Hp Hj) as (pj & Hlj & Hgj & Hbj).
  pose proof (is_perm256_length _ Hp) as Hlen.
  exists (<[Z.to_nat j := pi]> (<[Z.to_nat i := pj]> perm)). split.
  - unfold swap. rewrite Hgj, Hgi. simpl.
    rewrite setitem_in_range by (rewrite ?Hlen; done). simpl.
    apply setitem_in_range; [|done].
    unfold len. rewrite length_insert. fold (len perm). by rewrite Hlen.
  - unfold is_perm256. etrans; [|exact Hp].
    by apply Permutation_insert_swap.
Qed.

Lemma result_bind_Ok {A B} (a : A) (f : A → result B) : (Ok a ≫= f) = f a.
Proof. reflexivity. Qed.

Lemma result_bind_Raise {A B} (e : exn) (f : A → result B) :
  (Raise e ≫= f) = Raise e.
Proof. reflexivity. Qed.

Lemma is_Ok_not_raises {A} (r : result A) : is_Ok r → ¬ raises r.
Proof. intros [a ->] [e He]. discriminate He. Qed.

Lemma foldM_app {A B} (f : A → B → result A) a l1 l2 :
  foldM f a (l1 ++ l2) = (a' ← foldM f a l1; foldM f a' l2).
Proof.
  revert a. induction l1 as [|x l1 IH]; intros a; simpl; [done|].
  destruct (f a x) as [a'|e]; simpl; [apply IH|done].
Qed.

(** ** Key schedule *)

Lemma init_identity_loop : foldM init_identity [] (seqZ 0 256) = Ok (seqZ 0 256).
Proof. vm_compute. reflexivity. Qed.

Section key_schedule.
Variable key : bytes.
Hypothesis key_nonempty : key ≠ [].

Lemma key_index i : 0 ≤ i → ∃ k, getitem key (i `mod` len key) = Ok k.
Proof.
  intros Hi.
  assert (0 < len key) as Hlen.
  { unfold len. destruct key; [done|]. simpl. lia. }
  destruct (getitem_in_range key (i `mod` len key)) as (k & _ & Hk).
  { apply Z.mod_pos_bound. lia. }
  by exists k.
Qed.

Lemma init_schedule_step j perm i :
  is_perm256 perm → is_byte i →
  ∃ j' perm', init_schedule key (j, perm) i = Ok (j', perm') ∧ is_perm256 perm'.
Proof.
  intros Hp Hi.
  destruct (is_perm256_getitem perm i Hp Hi) as (pi & _ & Hgi & _).
  destruct (key_index i) as [k Hk]; [apply Hi|].
  pose proof (land_255_byte (j + (pi + k))) as Hj.
  destruct (swap_is_perm256 perm i _ Hp Hi Hj) as (perm' & Hs & Hp').
  exists (Z.land (j + (pi + k)) 255), perm'. split; [|done].
  unfold init_schedule. rewrite Hgi. simpl.
  unfold py_mod. destruct (Z.eqb_spec (len key) 0) as [E|_].
  { unfold len in E. destruct key; [done|]. simpl in E. lia. }
  simpl. rewrite Hk. simpl. rewrite Hs. done.
Qed.

Lemma init_schedule_loop idxs :
  Forall is_byte idxs → ∀ j perm, is_perm256 perm →
  ∃ j' perm',
    foldM (init_schedule key) (j, perm) idxs = Ok (j', perm') ∧ is_perm256 perm'.
Proof.
  induction 1 as [|i idxs Hi _ IH]; intros j perm Hp; cbn [foldM].
  - by exists j, perm.
  - destruct (init_schedule_step j perm i Hp Hi) as (j1 & perm1 & -> & Hp1).
    simpl. by apply IH.
Qed.

Lemma _cipherInit_is_perm256 :
  ∃ perm, _cipherInit key = Ok perm ∧ is_perm256 perm.
Proof.
  destruct (init_schedule_loop (seqZ 0 256)) with (j := 0) (perm := seqZ 0 256)
    as (j' & perm' & Hloop & Hp').
  { apply Forall_seqZ. unfold is_byte. lia. }
  { by unfold is_perm256. }
  exists perm'. split; [|done].
  unfold _cipherInit.
  rewrite init_identity_loop, result_bind_Ok, Hloop. done.
Qed.
End key_schedule.

(** ** Keystream *)

Lemma crypt_step_keystream i1 i2 perm :
  is_perm256 perm →
  ∃ k i1' i2' perm',
    is_byte k ∧ is_byte i1' ∧ is_byte i2' ∧ is_perm256 perm' ∧
    swap perm i1' i2' = Ok perm' ∧
    ∀ input i x out,
      getitem input i = Ok x →
      crypt_step input (CryptState i1 i2 perm out) i
      = Ok (CryptState i1' i2' perm' (out ++ [crypt_byte x k])).
Proof.
  intros Hp.
  pose proof (land_255_byte (i1 + 1)) as H1.
  destruct (is_perm256_getitem perm _ Hp H1) as (p1 & _ & Hg1 & _).
  pose proof (land_255_byte (i2 + p1)) as H2.
  destruct (swap_is_perm256 perm _ _ Hp H1 H2) as (perm' & Hs & Hp').
  destruct (is_perm256_getitem perm' _ Hp' H1) as (a & _ & Hga & _).
  destruct (is_perm256_getitem perm' _ Hp' H2) as (b & _ & Hgb & _).
  pose proof (land_255_byte (a + b)) as H3.
  destruct (is_perm256_getitem perm' _ Hp' H3) as (k & _ & Hgk & Hk).
  exists k, (Z.land (i1 + 1) 255), (Z.land (i2 + p1) 255), perm'.
  repeat split; try done; try apply H1; try apply H2; try apply Hk.
  intros input i x out Hx. unfold crypt_step. simpl.
  rewrite Hg1. simpl. rewrite Hs. simpl. rewrite Hga. simpl.
  rewrite Hgb. simpl. rewrite Hx. simpl. rewrite Hgk. simpl.
  rewrite mk_bytes_ok; [done|].
  constructor; [apply land_255_byte|constructor].
Qed.

Lemma crypt_loop_S input perm (n : nat) :
  crypt_loop input perm (seqZ 0 (Z.of_nat (S n)))
  = (st ← crypt_loop input perm (seqZ 0 (Z.of_nat n));
     crypt_step input st (Z.of_nat n)).
Proof.
  unfold crypt_loop. rewrite seqZ_S, foldM_app, Z.add_0_l. cbn [foldM].
  destruct (foldM (crypt_step input) _ (seqZ 0 (Z.of_nat n))) as [st|e];
    [|reflexivity].
  rewrite !result_bind_Ok.
  by destruct (crypt_step input st (Z.of_nat n)).
Qed.

(** After [n] iterations the indices, the buffer and the keystream used
    so far do not depend on the input. *)
Lemma crypt_loop_keystream perm0 :
  is_perm256 perm0 →
  ∀ n : nat, ∃ ks i1 i2 permn,
    length ks = n ∧ is_byte i1 ∧ is_byte i2 ∧ is_perm256 permn ∧
    ∀ input, (n ≤ length input)%nat →
      crypt_loop input perm0 (seqZ 0 (Z.of_nat n))
      = Ok (CryptState i1 i2 permn (zip_with crypt_byte (take n input) ks)).
Proof.
  intros Hp0. induction n as [|n (ks & i1 & i2 & permn & Hlen & Hi1 & Hi2 & Hpn & IH)].
  - exists [], 0, 0, perm0. unfold is_byte. repeat split; try done; try lia.
  - destruct (crypt_step_keystream i1 i2 permn Hpn)
      as (k & i1' & i2' & perm' & Hk & Hi1' & Hi2' & Hp' & _ & Hstep).
    exists (ks ++ [k]), i1', i2', perm'.
    repeat split; try done; try apply Hi1'; try apply Hi2'.
    { rewrite length_app. simpl. lia. }
    intros input Hn. rewrite crypt_loop_S, IH by lia. simpl.
    destruct (lookup_lt_is_Some_2 input n) as [x Hx]; [lia|].
    rewrite (Hstep input (Z.of_nat n) x).
    2:{ apply getitem_lookup; [lia|]. by rewrite Nat2Z.id. }
    rewrite (take_S_r _ _ _ Hx).
    rewrite zip_with_app by (rewrite length_take; lia). done.
Qed.

Lemma _cipherCrypt_keystream perm (n : nat) :
  is_perm256 perm →
  ∃ ks perm',
    length ks = n ∧ is_perm256 perm' ∧
    ∀ input, length input = n →
      _cipherCrypt input perm = Ok (zip_with crypt_byte input ks, perm').
Proof.
  intros Hp.
  destruct (crypt_loop_keystream perm Hp n)
    as (ks & i1 & i2 & permn & Hlen & _ & _ & Hpn & Hloop).
  exists ks, permn. repeat split; try done.
  intros input Hn. unfold _cipherCrypt, len. rewrite Hn, Hloop by lia.
  simpl. by rewrite <- Hn, firstn_all.
Qed.

Lemma cipher_keystream key (n : nat) :
  key ≠ [] →
  ∃ ks, length ks = n ∧
    ∀ input, length input = n → cipher key input = Ok (zip_with crypt_byte input ks).
Proof.
  intros Hkey.
  destruct (_cipherInit_is_perm256 key Hkey) as (perm & Hinit & Hp).
  destruct (_cipherCrypt_keystream perm n Hp) as (ks & perm' & Hlen & _ & Hc).
  exists ks. split; [done|]. intros input Hn.
  unfold cipher. rewrite Hinit. simpl. by rewrite (Hc input Hn).
Qed.

Lemma crypt_byte_involutive x k : is_byte x → crypt_byte (crypt_byte x k) k = x.
Proof.
  intros Hx. unfold crypt_byte. apply Z.bits_inj'. intros n Hn.
  change 255 with (Z.ones 8).
  repeat (rewrite Z.land_spec || rewrite Z.lxor_spec).
  rewrite Z.testbit_ones_nonneg by lia.
  destruct (Z.ltb_spec n 8).
  - rewrite !andb_true_r. by destruct (Z.testbit x n), (Z.testbit k n).
  - rewrite !andb_false_r. symmetry.
    rewrite <- (Z.mod_small x (2 ^ 8)) by (unfold is_byte in Hx; lia).
    apply Z.mod_pow2_bits_high. lia.
Qed.

Lemma zip_crypt_byte_involutive p ks :
  Forall is_byte p → length ks = length p →
  zip_with crypt_byte (zip_with crypt_byte p ks) ks = p.
Proof.
  intros Hp. revert ks. induction Hp as [|x p Hx _ IH]; intros [|k ks] Hlen;
    simpl in *; try done.
  rewrite crypt_byte_involutive by done. f_equal. apply IH. lia.
Qed.

Lemma land_255_id x : is_byte x → Z.land x 255 = x.
Proof.
  intros Hx. change 255 with (Z.ones 8).
  rewrite Z.land_ones by lia. apply Z.mod_small. unfold is_byte in Hx. lia.
Qed.

Lemma lxor_byte a b : is_byte a → is_byte b → is_byte (Z.lxor a b).
Proof.
  intros Ha Hb.
  assert (Z.land (Z.lxor a b) 255 = Z.lxor a b) as <-; [|apply land_255_byte].
  apply Z.bits_inj'. intros n Hn. change 255 with (Z.ones 8).
  rewrite Z.land_spec, Z.lxor_spec, Z.testbit_ones_nonneg by lia.
  destruct (Z.ltb_spec n 8); [by rewrite andb_true_r|].
  rewrite andb_false_r.
  rewrite <- (Z.mod_small a (2 ^ 8)) by (unfold is_byte in Ha; lia).
  rewrite <- (Z.mod_small b (2 ^ 8)) by (unfold is_byte in Hb; lia).
  by rewrite !Z.mod_pow2_bits_high by lia.
Qed.

Lemma crypt_byte_is_byte x k : is_byte (crypt_byte x k).
Proof. apply land_255_byte. Qed.

Lemma zip_crypt_byte_bytes p ks : Forall is_byte (zip_with crypt_byte p ks).
Proof.
  revert ks. induction p as [|x p IH]; intros [|k ks]; simpl; try done.
  constructor; [apply crypt_byte_is_byte|apply IH].
Qed.

(** ** Cipher engine: the claims *)

(** C9. For every non-empty key, [_cipherInit] returns a permutation of
    0..255. From that buffer, every iteration of the loop of
    [_cipherCrypt], on any input, runs without an out-of-range subscript,
    changes the buffer by one swap of two of its entries, and leaves it a
    permutation of 0..255; the whole call therefore returns. *)
Theorem cipher_buffer_stays_permutation (key : bytes) :
  key ≠ [] →
  ∃ perm0,
    _cipherInit key = Ok perm0 ∧ is_perm256 perm0 ∧
    (∀ (input : bytes) (n : nat), (n < length input)%nat →
       ∃ st st',
         crypt_loop input perm0 (seqZ 0 (Z.of_nat n)) = Ok st ∧
         crypt_step input st (Z.of_nat n) = Ok st' ∧
         crypt_loop input perm0 (seqZ 0 (Z.of_nat (S n))) = Ok st' ∧
         is_perm256 (cperm st) ∧
         (∃ i j, is_byte i ∧ is_byte j ∧ swap (cperm st) i j = Ok (cperm st')) ∧
         is_perm256 (cperm st')) ∧
    (∀ input : bytes, ∃ out perm',
       _cipherCrypt input perm0 = Ok (out, perm') ∧ is_perm256 perm').
Proof.
  intros Hkey.
  destruct (_cipherInit_is_perm256 key Hkey) as (perm0 & Hinit & Hp0).
  exists perm0. repeat split; try done.
  - intros input n Hn.
    destruct (crypt_loop_keystream perm0 Hp0 n)
      as (ks & i1 & i2 & permn & _ & _ & _ & Hpn & Hloop).
    destruct (crypt_step_keystream i1 i2 permn Hpn)
      as (k & i1' & i2' & perm' & _ & Hi1' & Hi2' & Hp' & Hswap & Hstep).
    destruct (lookup_lt_is_Some_2 input n) as [x Hx]; [lia|].
    assert (getitem input (Z.of_nat n) = Ok x) as Hgx.
    { apply getitem_lookup; [lia|]. by rewrite Nat2Z.id. }
    eexists _, _. split; [apply Hloop; lia|].
    split; [apply (Hstep _ _ _ _ Hgx)|].
    split; [rewrite crypt_loop_S, Hloop by lia; apply (Hstep _ _ _ _ Hgx)|].
    simpl. split; [done|]. split; [|done].
    by exists i1', i2'.
  - intros input.
    destruct (_cipherCrypt_keystream perm0 (length input) Hp0)
      as (ks & perm' & _ & Hp' & Hc).
    exists (zip_with crypt_byte input ks), perm'. split; [by apply Hc|done].
Qed.

Lemma cipher_buffer_stays_permutation_witness :
  [1; 2; 3] ≠ [] ∧
  ∃ perm0,
    _cipherInit [1; 2; 3] = Ok perm0 ∧ is_perm256 perm0 ∧
    (∀ (input : bytes) (n : nat), (n < length input)%nat →
       ∃ st st',
         crypt_loop input perm0 (seqZ 0 (Z.of_nat n)) = Ok st ∧
         crypt_step input st (Z.of_nat n) = Ok st' ∧
         crypt_loop input perm0 (seqZ 0 (Z.of_nat (S n))) = Ok st' ∧
         is_perm256 (cperm st) ∧
         (∃ i j, is_byte i ∧ is_byte j ∧ swap (cperm st) i j = Ok (cperm st')) ∧
         is_perm256 (cperm st')) ∧
    (∀ input : bytes, ∃ out perm',
       _cipherCrypt input perm0 = Ok (out, perm') ∧ is_perm256 perm').
Proof.
  assert ([1; 2; 3] ≠ @nil Z) as H by discriminate.
  exact (conj H (cipher_buffer_stays_permutation [1; 2; 3] H)).
Defined.

(** C3. For every non-empty key [k] and every byte sequence [p],
    [cipher(k, p)] returns some [c] and [cipher(k, c)] returns [p]: each
    call derives its permutation afresh from the key. *)
Theorem cipher_round_trip (k p : bytes) :
  k ≠ [] → Forall is_byte p →
  ∃ c, cipher k p = Ok c ∧ cipher k c = Ok p.
Proof.
  intros Hk Hp.
  destruct (cipher_keystream k (length p) Hk) as (ks & Hlen & Hc).
  exists (zip_with crypt_byte p ks). split; [by apply Hc|].
  rewrite Hc by (rewrite length_zip_with; lia).
  by rewrite zip_crypt_byte_involutive.
Qed.

Lemma cipher_round_trip_witness :
  [75; 101; 121] ≠ [] ∧ Forall is_byte [80; 108; 97; 105; 110] ∧
  ∃ c, cipher [75; 101; 121] [80; 108; 97; 105; 110] = Ok c ∧
       cipher [75; 101; 121] c = Ok [80; 108; 97; 105; 110].
Proof.
  assert ([75; 101; 121] ≠ @nil Z) as Hk by discriminate.
  assert (Forall is_byte [80; 108; 97; 105; 110]) as Hp
    by (repeat constructor; unfold is_byte; lia).
  exact (conj Hk (conj Hp (cipher_round_trip _ _ Hk Hp))).
Defined.

(** ** Key derivation: the claims *)

Lemma ekey_xor_in_range tick ekey (i : nat) e t :
  ekey !! i = Some e → tick !! i = Some t → is_byte e → is_byte t →
  ekey_xor tick ekey (Z.of_nat i) = Ok (<[i := Z.lxor e t]> ekey).
Proof.
  intros He Ht Hbe Hbt. unfold ekey_xor.
  rewrite (getitem_lookup ekey (Z.of_nat i) e) by (rewrite ?Nat2Z.id; done || lia).
  rewrite result_bind_Ok.
  rewrite (getitem_lookup tick (Z.of_nat i) t) by (rewrite ?Nat2Z.id; done || lia).
  rewrite result_bind_Ok.
  rewrite setitem_in_range, Nat2Z.id; [done| |by apply lxor_byte].
  apply lookup_lt_Some in He. unfold len. lia.
Qed.

(** C6. For every 12-byte token and every challenge of at least 3 bytes,
    [generateEkey] returns 12 bytes: the first three are the first three
    token bytes XORed with the first three bytes of
    [cipher(token, challenge)], the other nine are the token's. *)
Theorem generateEkey_layout (token challenge : bytes) :
  length token = 12%nat → Forall is_byte token → (3 ≤ length challenge)%nat →
  ∃ tick ekey,
    cipher token challenge = Ok tick ∧
    generateEkey token challenge = Ok ekey ∧
    length ekey = 12%nat ∧
    take 3 ekey = zip_with Z.lxor (take 3 token) (take 3 tick) ∧
    drop 3 ekey = drop 3 token.
Proof.
  intros Hlen Htok Hch.
  assert (token ≠ []) as Hne by (intros ->; discriminate).
  destruct (cipher_keystream token (length challenge) Hne) as (ks & Hks & Hc).
  specialize (Hc challenge eq_refl).
  pose proof (zip_crypt_byte_bytes challenge ks) as Htick.
  destruct challenge as [|c0 [|c1 [|c2 cs]]]; simpl in Hch; try lia.
  destruct ks as [|k0 [|k1 [|k2 kss]]]; simpl in Hks; try lia.
  simpl in Hc, Htick.
  apply Forall_cons in Htick as [Hb0 Htick].
  apply Forall_cons in Htick as [Hb1 Htick].
  apply Forall_cons in Htick as [Hb2 _].
  destruct token as [|t0 [|t1 [|t2 rest]]]; simpl in Hlen; try lia.
  apply Forall_cons in Htok as [Ht0 Htok].
  apply Forall_cons in Htok as [Ht1 Htok].
  apply Forall_cons in Htok as [Ht2 Htok].
  eexists _, _. split; [exact Hc|].
  unfold generateEkey. rewrite Hc, result_bind_Ok.
  rewrite mk_bytes_ok by (repeat (constructor; [assumption|]); assumption).
  rewrite result_bind_Ok.
  change (seqZ 0 3) with [Z.of_nat 0; Z.of_nat 1; Z.of_nat 2].
  cbn [foldM].
  rewrite (ekey_xor_in_range _ _ 0 t0 (crypt_byte c0 k0)) by done.
  rewrite result_bind_Ok.
  rewrite (ekey_xor_in_range _ _ 1 t1 (crypt_byte c1 k1)) by done.
  rewrite result_bind_Ok.
  rewrite (ekey_xor_in_range _ _ 2 t2 (crypt_byte c2 k2)) by done.
  rewrite result_bind_Ok. simpl.
  repeat split; try done.
Qed.

Lemma generateEkey_layout_witness :
  length _TOKEN = 12%nat ∧ Forall is_byte _TOKEN ∧ (3 ≤ length [1; 2; 3; 4]%Z)%nat ∧
  ∃ tick ekey,
    cipher _TOKEN [1; 2; 3; 4] = Ok tick ∧
    generateEkey _TOKEN [1; 2; 3; 4] = Ok ekey ∧
    length ekey = 12%nat ∧
    take 3 ekey = zip_with Z.lxor (take 3 _TOKEN) (take 3 tick) ∧
    drop 3 ekey = drop 3 _TOKEN.
Proof.
  assert (length _TOKEN = 12%nat) as H1 by reflexivity.
  assert (Forall is_byte _TOKEN) as H2
    by (repeat constructor; unfold is_byte; lia).
  assert (3 ≤ length [1; 2; 3; 4]%Z)%nat as H3 by (simpl; lia).
  exact (conj H1 (conj H2 (conj H3 (generateEkey_layout _ _ H1 H2 H3)))).
Defined.

(** ** Status decoder: the claims *)

(** C1. On the payload [1,1,0,0,65,23,0,0,5] the decoder returns action
    heating, mode boil, set temperature 65, current temperature 23 and
    keep warm type warm up, and a keep warm time of 0: the slice
    [data[7:8]] holds byte 7 alone, so byte 8 (here 5) is never read. *)
Theorem parse_data_status_example :
  _parse_data [1; 1; 0; 0; 65; 23; 0; 0; 5]
  = Ok {[ MI_ACTION := PStr "heating";
          MI_MODE := PStr "boil";
          MI_SET_TEMPERATURE := PInt 65;
          MI_CURRENT_TEMPERATURE := PInt 23;
          MI_KW_TYPE := PStr "warm up";
          MI_KW_TIME := PInt 0 ]}
  ∧ slice [1; 1; 0; 0; 65; 23; 0; 0; 5] 7 8 = [0]
  ∧ bytes_to_int [0; 5] = 5.
Proof.
  split; [vm_compute; reflexivity|].
  split; reflexivity.
Qed.

Lemma getitem_0 data b : data !! 0%nat = Some b → getitem data 0 = Ok b.
Proof. intros H. by apply getitem_lookup. Qed.

Lemma parse_data_unmapped_action data b :
  data !! 0%nat = Some b → MI_ACTION_MAP !! b = None →
  _parse_data data = Raise KeyError.
Proof.
  intros Hb Hmap. unfold _parse_data.
  rewrite (getitem_0 _ _ Hb), result_bind_Ok.
  unfold dict_get. by rewrite Hmap.
Qed.

Lemma parse_data_short data : (length data < 7)%nat → raises (_parse_data data).
Proof.
  intros Hlen. unfold _parse_data.
  rewrite (getitem_out_of_range data 6) by (unfold len; lia).
  destruct (getitem data 0) as [d0|]; [rewrite result_bind_Ok|by eexists].
  destruct (dict_get MI_ACTION_MAP d0); [rewrite result_bind_Ok|by eexists].
  destruct (getitem data 1) as [d1|]; [rewrite result_bind_Ok|by eexists].
  destruct (dict_get MI_MODE_MAP d1); [rewrite result_bind_Ok|by eexists].
  destruct (getitem data 4) as [d4|]; [rewrite result_bind_Ok|by eexists].
  destruct (getitem data 5) as [d5|]; [rewrite result_bind_Ok|by eexists].
  by eexists.
Qed.

Lemma parse_data_total data d0 d1 d6 :
  (7 ≤ length data)%nat →
  data !! 0%nat = Some d0 → data !! 1%nat = Some d1 → data !! 6%nat = Some d6 →
  is_Some (MI_ACTION_MAP !! d0) → is_Some (MI_MODE_MAP !! d1) →
  is_Some (MI_KW_TYPE_MAP !! d6) →
  is_Ok (_parse_data data).
Proof.
  intros Hlen H0 H1 H6 [a Ha] [m Hm] [t Ht].
  destruct (lookup_lt_is_Some_2 data 4) as [d4 H4]; [lia|].
  destruct (lookup_lt_is_Some_2 data 5) as [d5 H5]; [lia|].
  unfold _parse_data, dict_get.
  rewrite (getitem_lookup data 0 d0), result_bind_Ok, Ha, result_bind_Ok by done.
  rewrite (getitem_lookup data 1 d1), result_bind_Ok, Hm, result_bind_Ok by done.
  rewrite (getitem_lookup data 4 d4), result_bind_Ok by done.
  rewrite (getitem_lookup data 5 d5), result_bind_Ok by done.
  rewrite (getitem_lookup data 6 d6), result_bind_Ok, Ht, result_bind_Ok by done.
  by eexists.
Qed.

(** C7, as the code has it. Decoding raises on every payload whose byte 0
    is an unmapped action code and on every payload shorter than 7 bytes;
    it returns a reading on every payload of at least 7 bytes whose bytes
    0, 1 and 6 are mapped codes. *)
Theorem parse_data_failures_and_totality :
  (∀ data b, data !! 0%nat = Some b → MI_ACTION_MAP !! b = None →
             raises (_parse_data data)) ∧
  (∀ data, (length data < 7)%nat → raises (_parse_data data)) ∧
  (∀ data d0 d1 d6,
     (7 ≤ length data)%nat →
     data !! 0%nat = Some d0 → data !! 1%nat = Some d1 → data !! 6%nat = Some d6 →
     is_Some (MI_ACTION_MAP !! d0) → is_Some (MI_MODE_MAP !! d1) →
     is_Some (MI_KW_TYPE_MAP !! d6) →
     is_Ok (_parse_data data)).
Proof.
  split; [|split].
  - intros data b Hb Hmap. exists KeyError.
    by apply (parse_data_unmapped_action data b).
  - apply parse_data_short.
  - apply parse_data_total.
Qed.

Lemma parse_data_failures_and_totality_witness :
  raises (_parse_data [9; 1; 0; 0; 65; 23; 0; 0; 5]) ∧
  raises (_parse_data [1; 1; 0; 0; 65; 23]) ∧
  is_Ok (_parse_data [1; 1; 0; 0; 65; 23; 0]).
Proof.
  destruct parse_data_failures_and_totality as (Hcode & Hshort & Htotal).
  split; [|split].
  - apply (Hcode [9; 1; 0; 0; 65; 23; 0; 0; 5] 9); reflexivity.
  - apply (Hshort [1; 1; 0; 0; 65; 23]). simpl. lia.
  - apply (Htotal [1; 1; 0; 0; 65; 23; 0] 1 1 0);
      try reflexivity; try (simpl; lia); by eexists.
Defined.

(** C7 as stated fails: a well-formed payload of 7 bytes, shorter than 8,
    is decoded without an error. *)
Lemma parse_data_seven_bytes_decoded :
  (length [1; 1; 0; 0; 65; 23; 0]%Z < 8)%nat ∧
  ¬ raises (_parse_data [1; 1; 0; 0; 65; 23; 0]).
Proof.
  split; [simpl; lia|].
  apply is_Ok_not_raises.
  apply (parse_data_total _ 1 1 0); try reflexivity; try (simpl; lia); by eexists.
Qed.

(** C8, on the code. With every constructor argument at its default,
    [checkPairing] answers [True] for data whose chained decryption is not
    the token, and [False] for the data whose chained decryption is the
    token: the comparison in the source is [!=]. *)
Theorem checkPairing_negated :
  (pairing_chain default_kettle [] = Ok []
   ∧ [] ≠ _token default_kettle
   ∧ checkPairing default_kettle [] = Ok true)
  ∧ (pairing_chain default_kettle
       [235; 135; 198; 13; 128; 198; 207; 80; 222; 34; 95; 169]
     = Ok (_token default_kettle)
     ∧ checkPairing default_kettle
         [235; 135; 198; 13; 128; 198; 207; 80; 222; 34; 95; 169]
       = Ok false).
Proof. vm_compute. repeat split; (reflexivity || discriminate). Qed.

(** In general [checkPairing] is the negation of the comparison of the
    chained decryption with the token. *)
Lemma checkPairing_chain self data c :
  pairing_chain self data = Ok c →
  checkPairing self data = Ok (negb (bool_decide (c = _token self))).
Proof.
  unfold pairing_chain, checkPairing. intros H.
  destruct (mixB _ _) as [kb|];
    [|rewrite result_bind_Raise in H; discriminate H].
  rewrite result_bind_Ok in H. rewrite result_bind_Ok.
  destruct (mixA _ _) as [ka|];
    [|rewrite result_bind_Raise in H; discriminate H].
  rewrite result_bind_Ok in H. rewrite result_bind_Ok.
  destruct (cipher ka data) as [inner|];
    [|rewrite result_bind_Raise in H; discriminate H].
  rewrite result_bind_Ok in H. rewrite result_bind_Ok.
  rewrite H, result_bind_Ok. f_equal.
  by destruct (decide (c = _token self)) as [->|Hne];
    [rewrite bool_decide_eq_false_2, bool_decide_eq_true_2 by auto
    |rewrite bool_decide_eq_true_2, bool_decide_eq_false_2 by auto].
Qed.

(** ** Methods of the handle *)

Lemma M_bind_unfold {A B} (m : M A) (f : A → M B) self w :
  (m ≫= f) self w
  = match m self w with
    | (Ok a, self', w') => f a self' w'
    | (Raise e, self', w') => (Raise e, self', w')
    end.
Proof. reflexivity. Qed.

(** C10. In [handleNotification] on the status handle with data that
    [_parse_data] decodes, the test [cache_available()] made after the
    cache is stored answers [True], and the handler stores the reading and
    sets [_last_read] to the current time: the backoff branch is not
    taken. *)
Theorem status_notification_sets_last_read
    (self : MiKettle) (w : World) (data : bytes) (res : gmap string pyval) :
  _parse_data data = Ok res →
  cache_available (set_cache (Some res) self) w
  = (Ok true, set_cache (Some res) self, w)
  ∧ handleNotification _HANDLE_STATUS (Some data) self w
    = (Ok (), set_last_read (Some (clock w)) (set_cache (Some res) self), w).
Proof.
  intros Hparse. split; [reflexivity|].
  unfold handleNotification.
  rewrite bool_decide_eq_false_2 by discriminate.
  rewrite bool_decide_eq_true_2 by reflexivity.
  rewrite M_bind_unfold. unfold lift at 1. rewrite Hparse.
  reflexivity.
Qed.

Lemma status_notification_sets_last_read_witness :
  _parse_data [1; 1; 0; 0; 65; 23; 0; 0; 5]
  = Ok {[ MI_ACTION := PStr "heating";
          MI_MODE := PStr "boil";
          MI_SET_TEMPERATURE := PInt 65;
          MI_CURRENT_TEMPERATURE := PInt 23;
          MI_KW_TYPE := PStr "warm up";
          MI_KW_TIME := PInt 0 ]}
  ∧ handleNotification _HANDLE_STATUS (Some [1; 1; 0; 0; 65; 23; 0; 0; 5])
      default_kettle (mkWorld 1000 [] [])
    = (Ok (),
       set_last_read (Some 1000)
         (set_cache
            (Some {[ MI_ACTION := PStr "heating";
                     MI_MODE := PStr "boil";
                     MI_SET_TEMPERATURE := PInt 65;
                     MI_CURRENT_TEMPERATURE := PInt 23;
                     MI_KW_TYPE := PStr "warm up";
                     MI_KW_TIME := PInt 0 ]}) default_kettle),
       mkWorld 1000 [] []).
Proof.
  assert (_parse_data [1; 1; 0; 0; 65; 23; 0; 0; 5]
          = Ok {[ MI_ACTION := PStr "heating";
                  MI_MODE := PStr "boil";
                  MI_SET_TEMPERATURE := PInt 65;
                  MI_CURRENT_TEMPERATURE := PInt 23;
                  MI_KW_TYPE := PStr "warm up";
                  MI_KW_TIME := PInt 0 ]}) as H
    by (vm_compute; reflexivity).
  exact (conj H (proj2 (status_notification_sets_last_read
                          default_kettle (mkWorld 1000 [] []) _ _ H))).
Defined.

Lemma handleNotification_status d self w :
  handleNotification _HANDLE_STATUS (Some d) self w
  = match _parse_data d with
    | Ok res =>
        (Ok (), set_last_read (Some (clock w)) (set_cache (Some res) self), w)
    | Raise e => (Raise e, self, w)
    end.
Proof.
  unfold handleNotification.
  rewrite bool_decide_eq_false_2 by discriminate.
  rewrite bool_decide_eq_true_2 by reflexivity.
  rewrite M_bind_unfold. unfold lift at 1.
  destruct (_parse_data d); reflexivity.
Qed.

Lemma clear_cache_run self w :
  clear_cache self w = (Ok (), set_last_read None (set_cache None self), w).
Proof. reflexivity. Qed.

Lemma read_cache_run parameter self w :
  read_cache parameter self w = (cached_field parameter self, self, w).
Proof.
  unfold read_cache, cached_field.
  rewrite M_bind_unfold. unfold cache_available at 1.
  rewrite M_bind_unfold. unfold get_self at 1. unfold mret, M_ret.
  destruct (_cache self) as [c|] eqn:E.
  - rewrite bool_decide_eq_true_2 by done.
    rewrite M_bind_unfold. unfold get_self, lift. by rewrite E.
  - rewrite bool_decide_eq_false_2 by (intros H; by apply H).
    reflexivity.
Qed.

(** ** Properties kept by every method *)

Section post_rules.
Variable P : MiKettle → World → MiKettle → World → Prop.
Hypothesis P_refl : ∀ s w, P s w s w.
Hypothesis P_trans : ∀ s1 w1 s2 w2 s3 w3,
  P s1 w1 s2 w2 → P s2 w2 s3 w3 → P s1 w1 s3 w3.

Lemma post_ret {A} (a : A) : post P (mret a : M A).
Proof. intros s w. apply P_refl. Qed.

Lemma post_get_self : post P get_self.
Proof. intros s w. apply P_refl. Qed.

Lemma post_datetime_now : post P datetime_now.
Proof. intros s w. apply P_refl. Qed.

Lemma post_lift {A} (r : result A) : post P (lift r).
Proof. intros s w. apply P_refl. Qed.

Lemma post_raise {A} e : post P (raise e : M A).
Proof. intros s w. apply P_refl. Qed.

Lemma post_modify f : (∀ s w, P s w (f s) w) → post P (modify f).
Proof. intros H s w. apply H. Qed.

Lemma post_bind {A B} (m : M A) (f : A → M B) :
  post P m → (∀ a, post P (f a)) → post P (m ≫= f).
Proof.
  intros Hm Hf s w. specialize (Hm s w). rewrite M_bind_unfold.
  destruct (m s w) as [[[a|e] s1] w1]; [|exact Hm].
  eapply P_trans; [exact Hm|apply Hf].
Qed.

Lemma post_try_except {A} (body : M A) handler :
  post P body → (∀ e, post P (handler e)) → post P (try_except body handler).
Proof.
  intros Hb Hh s w. specialize (Hb s w). unfold try_except.
  destruct (body s w) as [[[a|e] s1] w1]; [exact Hb|].
  eapply P_trans; [exact Hb|apply Hh].
Qed.

Lemma post_for_each {A} (body : A → M unit) l :
  (∀ x, post P (body x)) → post P (for_each body l).
Proof.
  intros Hb. induction l as [|x l IH]; simpl.
  - apply post_ret.
  - apply post_bind; [apply Hb|intros _; apply IH].
Qed.

(** What [P] must allow: the writes the methods make to the handle and
    the progress of the link. *)
Hypothesis P_challenging : ∀ s w b, P s w (set_challenging b s) w.
Hypothesis P_confirming : ∀ s w b, P s w (set_confirming b s) w.
Hypothesis P_ekey : ∀ s w k, P s w (set_ekey k s) w.
Hypothesis P_connected : ∀ s w b, P s w (set_connected b s) w.
Hypothesis P_assign_p : ∀ s w, P s w (assign_p s) w.
Hypothesis P_authed : ∀ s w b, P s w (set_authed b s) w.
Hypothesis P_status : ∀ s w res,
  P s w (set_last_read (Some (clock w)) (set_cache (Some res) s)) w.
Hypothesis P_backoff : ∀ s w t, P s w (set_last_read (Some t) s) w.
Hypothesis P_link : ∀ s w t p c, P s w s (mkWorld t p (c :: calls w)).

Lemma post_handleNotification cHandle data : post P (handleNotification cHandle data).
Proof.
  destruct (decide (cHandle = _HANDLE_STATUS)) as [->|Hs].
  { intros s w. destruct data as [d|].
    - rewrite handleNotification_status.
      destruct (_parse_data d); [apply P_status|apply P_refl].
    - apply P_refl. }
  unfold handleNotification.
  destruct (bool_decide (cHandle = _HANDLE_AUTH)).
  - apply post_bind; [apply post_get_self|]. intros self.
    destruct (_challenging self).
    { apply post_bind; [by apply post_modify|]. intros _.
      apply post_bind; [apply post_lift|]. intros ekey.
      by apply post_modify. }
    destruct (_confirming self).
    { apply post_bind; [by apply post_modify|]. intros _.
      apply post_bind; [apply post_lift|]. intros ok.
      destruct (negb ok); [apply post_raise|apply post_ret]. }
    apply post_raise.
  - rewrite bool_decide_eq_false_2 by done.
    destruct data; [apply post_ret|apply post_raise].
Qed.

Lemma post_link_call c : post P (link_call c).
Proof.
  intros s w. unfold link_call.
  destruct (pending w) as [|ev rest]; [apply P_link|].
  eapply P_trans; [apply (P_link s w (clock w + elapsed ev) rest c)|].
  apply (post_bind (for_each _ _)).
  - apply post_for_each. intros n. apply post_handleNotification.
  - intros _. destruct (failure ev); [apply post_raise|apply post_ret].
Qed.

Lemma post_get_p : post P get_p.
Proof.
  apply post_bind; [apply post_get_self|]. intros self.
  destruct (has_p self); [apply post_ret|apply post_raise].
Qed.

Lemma post_peripheral_call c : post P (peripheral_call c).
Proof.
  apply post_bind; [apply post_get_p|]. intros _. apply post_link_call.
Qed.

Lemma post_connect : post P connect.
Proof.
  apply post_bind; [apply post_get_self|]. intros self.
  destruct (negb (_connected self)); [|apply post_ret].
  apply post_bind; [apply post_link_call|]. intros _.
  apply post_bind; [by apply post_modify|]. intros _.
  apply post_bind; [apply post_get_p|]. intros _.
  by apply post_modify.
Qed.

Lemma post_auth : post P auth.
Proof.
  apply post_bind; [apply post_get_self|]. intros self.
  destruct (negb (_authed self)); [|apply post_ret].
  repeat first
    [ apply post_peripheral_call
    | apply post_link_call
    | apply post_get_p
    | apply post_get_self
    | apply post_lift
    | by apply post_modify
    | apply post_bind; [|intros ?] ].
Qed.

Lemma post_subscribeToData : post P subscribeToData.
Proof.
  repeat first
    [ apply post_peripheral_call
    | apply post_link_call
    | apply post_bind; [|intros ?] ].
Qed.

Lemma post_fill_cycle : post P fill_cycle.
Proof.
  apply post_bind; [apply post_connect|]. intros _.
  apply post_bind; [apply post_auth|]. intros _.
  apply post_bind; [apply post_subscribeToData|]. intros _.
  apply post_peripheral_call.
Qed.

Lemma post_fill_cache : post P fill_cache.
Proof.
  apply post_try_except; [apply post_fill_cycle|]. intros e.
  apply post_bind; [apply post_datetime_now|]. intros now.
  apply post_bind; [apply post_get_self|]. intros self.
  apply post_bind; [apply post_lift|]. intros backoff.
  apply post_bind; [by apply post_modify|]. intros _.
  apply post_bind; [by apply post_modify|]. intros _.
  by apply post_modify.
Qed.

Lemma post_read_cache parameter : post P (read_cache parameter).
Proof. intros s w. rewrite read_cache_run. apply P_refl. Qed.

Lemma post_parameter_value parameter read_cached :
  post P (parameter_value parameter read_cached).
Proof.
  apply post_bind; [apply post_get_self|]. intros self.
  apply post_bind.
  - match goal with
    | |- post P (if ?b then _ else _) => destruct b
    end; [apply post_ret|].
    apply post_bind; [apply post_datetime_now|]. intros now.
    apply post_bind; [apply post_lift|]. intros limit. apply post_ret.
  - intros stale. apply post_bind; [|intros _; apply post_read_cache].
    destruct stale; [apply post_fill_cache|apply post_ret].
Qed.
End post_rules.

(** ** The reading and its timestamp *)




Lemma datetime_in_rangeb_spec t : datetime_in_rangeb t = true ↔ datetime_in_range t.
Proof.
  unfold datetime_in_rangeb, datetime_in_range. rewrite andb_true_iff. lia.
Qed.

Lemma datetime_sub_in_range t d :
  datetime_in_range (t - d) → datetime_sub t d = Ok (t - d).
Proof.
  intros H. unfold datetime_sub. apply datetime_in_rangeb_spec in H.
  by rewrite H.
Qed.

Lemma datetime_sub_out_of_range t d :
  ¬ datetime_in_range (t - d) → datetime_sub t d = Raise OverflowError.
Proof.
  intros H. unfold datetime_sub.
  destruct (datetime_in_rangeb (t - d)) eqn:E; [|done].
  by apply datetime_in_rangeb_spec in E.
Qed.

Lemma datetime_add_in_range t d :
  datetime_in_range (t + d) → datetime_add t d = Ok (t + d).
Proof.
  intros H. unfold datetime_add. apply datetime_in_rangeb_spec in H.
  by rewrite H.
Qed.

Lemma datetime_in_range_dec t : datetime_in_range t ∨ ¬ datetime_in_range t.
Proof. unfold datetime_in_range. lia. Qed.

Lemma backoff_timestamp_in_range now ttl :
  datetime_in_range (now - ttl) →
  datetime_in_range (now - ttl + timedelta_seconds 300) →
  backoff_timestamp now ttl = Ok (now - ttl + timedelta_seconds 300).
Proof.
  intros H1 H2. unfold backoff_timestamp.
  rewrite (datetime_sub_in_range _ _ H1), result_bind_Ok.
  by apply datetime_add_in_range.
Qed.

Lemma backoff_timestamp_Ok now ttl backoff :
  backoff_timestamp now ttl = Ok backoff →
  backoff = now - ttl + timedelta_seconds 300 ∧
  datetime_in_range (now - ttl) ∧
  datetime_in_range (now - ttl + timedelta_seconds 300).
Proof.
  unfold backoff_timestamp, datetime_sub, datetime_add.
  destruct (datetime_in_rangeb (now - ttl)) eqn:E1;
    [rewrite result_bind_Ok|rewrite result_bind_Raise; discriminate].
  destruct (datetime_in_rangeb (now - ttl + timedelta_seconds 300)) eqn:E2;
    [|discriminate].
  intros [= <-]. apply datetime_in_rangeb_spec in E1, E2. done.
Qed.

Lemma backoff_timestamp_Raise now ttl e :
  backoff_timestamp now ttl = Raise e →
  e = OverflowError ∧
  ¬ (datetime_in_range (now - ttl) ∧
     datetime_in_range (now - ttl + timedelta_seconds 300)).
Proof.
  intros H. split.
  - revert H. unfold backoff_timestamp, datetime_sub, datetime_add.
    destruct (datetime_in_rangeb (now - ttl));
      [rewrite result_bind_Ok|rewrite result_bind_Raise; by intros [= <-]].
    destruct (datetime_in_rangeb _); [discriminate|by intros [= <-]].
  - intros [H1 H2]. rewrite (backoff_timestamp_in_range _ _ H1 H2) in H.
    discriminate H.
Qed.

(** What [fill_cache] does when its [try] block raises. *)
Lemma fill_cache_failed self w e self1 w1 :
  fill_cycle self w = (Raise e, self1, w1) →
  fill_cache self w
  = match backoff_timestamp (clock w1) (_cache_timeout self1) with
    | Ok backoff =>
        (Ok (),
         set_authed false
           (set_connected false (set_last_read (Some backoff) self1)),
         w1)
    | Raise e' => (Raise e', self1, w1)
    end.
Proof.
  intros H. unfold fill_cache, try_except. rewrite H.
  rewrite M_bind_unfold. unfold datetime_now at 1.
  rewrite M_bind_unfold. unfold get_self at 1.
  rewrite M_bind_unfold. unfold lift at 1.
  by destruct (backoff_timestamp (clock w1) (_cache_timeout self1)).
Qed.

Lemma fill_cache_failed_in_range self w e self1 w1 :
  fill_cycle self w = (Raise e, self1, w1) →
  datetime_in_range (clock w1 - _cache_timeout self1) →
  datetime_in_range (clock w1 - _cache_timeout self1 + timedelta_seconds 300) →
  fill_cache self w
  = (Ok (),
     set_authed false
       (set_connected false
          (set_last_read
             (Some (clock w1 - _cache_timeout self1 + timedelta_seconds 300))
             self1)),
     w1).
Proof.
  intros H H1 H2.
  by rewrite (fill_cache_failed _ _ _ _ _ H), (backoff_timestamp_in_range _ _ H1 H2).
Qed.

(** ** Calls to the peripheral *)

Lemma calls_extended_same_world (s : MiKettle) w (s' : MiKettle) :
  calls_extended s w s' w.
Proof. by exists []. Qed.

Lemma calls_extended_refl s w : calls_extended s w s w.
Proof. apply calls_extended_same_world. Qed.

#[local] Hint Resolve calls_extended_same_world : core.

Lemma calls_extended_trans s1 w1 s2 w2 s3 w3 :
  calls_extended s1 w1 s2 w2 → calls_extended s2 w2 s3 w3 →
  calls_extended s1 w1 s3 w3.
Proof.
  intros [cs1 H1] [cs2 H2]. exists (cs2 ++ cs1).
  by rewrite H2, H1, app_assoc.
Qed.

Lemma calls_extended_link (s : MiKettle) w t p c :
  calls_extended s w s (mkWorld t p (c :: calls w)).
Proof. by exists [c]. Qed.

Lemma calls_extended_handleNotification cHandle data :
  post calls_extended (handleNotification cHandle data).
Proof.
  apply post_handleNotification;
    eauto using calls_extended_refl, calls_extended_trans, calls_extended_link.
Qed.

Lemma calls_extended_fill_cache : post calls_extended fill_cache.
Proof.
  apply post_fill_cache;
    eauto using calls_extended_refl, calls_extended_trans, calls_extended_link.
Qed.

Lemma calls_extended_link_call c : post calls_extended (link_call c).
Proof.
  apply post_link_call;
    eauto using calls_extended_refl, calls_extended_trans, calls_extended_link.
Qed.

Lemma calls_extended_auth : post calls_extended auth.
Proof.
  apply post_auth;
    eauto using calls_extended_refl, calls_extended_trans, calls_extended_link.
Qed.

Lemma calls_extended_subscribeToData : post calls_extended subscribeToData.
Proof.
  apply post_subscribeToData;
    eauto using calls_extended_refl, calls_extended_trans, calls_extended_link.
Qed.

Lemma link_contacted_bind {A B} (m : M A) (f : A → M B) s w :
  link_contacted w (world_of (m s w)) →
  (∀ a, post calls_extended (f a)) →
  link_contacted w (world_of ((m ≫= f) s w)).
Proof.
  intros Hm Hf. rewrite M_bind_unfold.
  destruct (m s w) as [[[a|e] s1] w1]; [|exact Hm].
  destruct Hm as (c & cs & Hcs). destruct (Hf a s1 w1) as [cs' Hcs'].
  exists c, (cs' ++ cs). simpl in Hcs. by rewrite Hcs', Hcs, app_assoc.
Qed.

Lemma link_call_contacts c s w : link_contacted w (world_of (link_call c s w)).
Proof.
  unfold link_call. destruct (pending w) as [|ev rest].
  - by exists c, [].
  - match goal with
    | |- link_contacted _ (world_of (?m s ?w0)) =>
        assert (post calls_extended m) as Hm
    end.
    { apply (post_bind _ calls_extended_trans).
      - apply (post_for_each _ calls_extended_refl calls_extended_trans).
        intros n. apply calls_extended_handleNotification.
      - intros _. destruct (failure ev).
        + apply (post_raise _ calls_extended_refl).
        + apply (post_ret _ calls_extended_refl). }
    destruct (Hm s (mkWorld (clock w + elapsed ev) rest (c :: calls w)))
      as [cs Hcs].
    by exists c, cs.
Qed.

Lemma connect_connected s w : _connected s = true → connect s w = (Ok (), s, w).
Proof.
  intros H. unfold connect. rewrite M_bind_unfold. unfold get_self at 1.
  by rewrite H.
Qed.

Lemma auth_authed s w : _authed s = true → auth s w = (Ok (), s, w).
Proof.
  intros H. unfold auth. rewrite M_bind_unfold. unfold get_self at 1.
  by rewrite H.
Qed.

Lemma calls_extended_get_p : post calls_extended get_p.
Proof.
  apply post_get_p; eauto using calls_extended_refl, calls_extended_trans.
Qed.

Lemma calls_extended_peripheral_call c : post calls_extended (peripheral_call c).
Proof.
  apply post_peripheral_call;
    eauto using calls_extended_refl, calls_extended_trans, calls_extended_link.
Qed.

Ltac calls_extended_steps :=
  repeat first
    [ apply calls_extended_link_call
    | apply calls_extended_peripheral_call
    | apply calls_extended_get_p
    | apply calls_extended_auth
    | apply calls_extended_subscribeToData
    | apply (post_get_self _ calls_extended_refl)
    | apply (post_lift _ calls_extended_refl)
    | apply (post_modify calls_extended); intros; apply calls_extended_same_world
    | apply (post_bind _ calls_extended_trans); [|intros ?] ].

(** A handle whose [_connected] flag is set has a [_p]. *)
Lemma connected_has_p s : _connected s = true → has_p s = true.
Proof. unfold _connected, has_p. by destruct (_link s). Qed.

Lemma get_p_run s w : has_p s = true → get_p s w = (Ok (), s, w).
Proof.
  intros H. unfold get_p. rewrite M_bind_unfold. unfold get_self at 1.
  by rewrite H.
Qed.

Lemma get_p_missing s w :
  has_p s = false → get_p s w = (Raise AttributeError, s, w).
Proof.
  intros H. unfold get_p. rewrite M_bind_unfold. unfold get_self at 1.
  by rewrite H.
Qed.

Lemma peripheral_call_run c s w :
  has_p s = true → peripheral_call c s w = link_call c s w.
Proof.
  intros H. unfold peripheral_call.
  by rewrite M_bind_unfold, (get_p_run _ _ H).
Qed.

Lemma peripheral_call_missing c s w :
  has_p s = false → peripheral_call c s w = (Raise AttributeError, s, w).
Proof.
  intros H. unfold peripheral_call.
  by rewrite M_bind_unfold, (get_p_missing _ _ H).
Qed.

Lemma peripheral_call_contacts c s w :
  has_p s = true → link_contacted w (world_of (peripheral_call c s w)).
Proof.
  intros H. rewrite (peripheral_call_run _ _ _ H). apply link_call_contacts.
Qed.

Lemma fill_cycle_contacts s w : link_contacted w (world_of (fill_cycle s w)).
Proof.
  unfold fill_cycle.
  destruct (_connected s) eqn:Ec.
  - pose proof (connected_has_p s Ec) as Hp.
    rewrite M_bind_unfold, (connect_connected s w Ec).
    destruct (_authed s) eqn:Ea.
    + rewrite M_bind_unfold, (auth_authed s w Ea).
      apply link_contacted_bind; [|intros _; calls_extended_steps].
      unfold subscribeToData.
      apply link_contacted_bind; [by apply peripheral_call_contacts|].
      intros _. calls_extended_steps.
    + apply link_contacted_bind; [|intros _; calls_extended_steps].
      unfold auth. rewrite M_bind_unfold. unfold get_self at 1. rewrite Ea.
      cbn [negb].
      apply link_contacted_bind; [by apply peripheral_call_contacts|].
      intros _. calls_extended_steps.
  - apply link_contacted_bind; [|intros _; calls_extended_steps].
    unfold connect. rewrite M_bind_unfold. unfold get_self at 1. rewrite Ec.
    cbn [negb].
    apply link_contacted_bind; [apply link_call_contacts|].
    intros _. calls_extended_steps.
Qed.

Lemma fill_cache_contacts s w : link_contacted w (world_of (fill_cache s w)).
Proof.
  pose proof (fill_cycle_contacts s w) as H.
  destruct (fill_cycle s w) as [[[a|e] s1] w1] eqn:E.
  - unfold fill_cache, try_except. by rewrite E.
  - rewrite (fill_cache_failed _ _ _ _ _ E).
    by destruct (backoff_timestamp (clock w1) (_cache_timeout s1)).
Qed.

Lemma link_contacted_neq w w' : link_contacted w w' → w' ≠ w.
Proof.
  intros (c & cs & H) ->. apply (f_equal length) in H.
  rewrite length_app in H. simpl in H. lia.
Qed.

(** ** The freshness test of [parameter_value] *)

Lemma stale_test_run self w :
  (datetime_now ≫= λ now,
     lift (datetime_sub now (_cache_timeout self)) ≫= λ limit,
       mret (match _last_read self with
             | Some last => limit >? last
             | None => false
             end)) self w
  = match datetime_sub (clock w) (_cache_timeout self) with
    | Ok limit =>
        (Ok (match _last_read self with
             | Some last => limit >? last
             | None => false
             end), self, w)
    | Raise e => (Raise e, self, w)
    end.
Proof.
  rewrite M_bind_unfold. unfold datetime_now at 1.
  rewrite M_bind_unfold. unfold lift at 1.
  by destruct (datetime_sub (clock w) (_cache_timeout self)).
Qed.

(** The three ways through [parameter_value]: fill without a test, a test
    that raises, and a test that answers. *)
Lemma parameter_value_run parameter read_cached self w :
  parameter_value parameter read_cached self w
  = if negb read_cached || bool_decide (_last_read self = None)
    then (fill_cache;; read_cache parameter) self w
    else match datetime_sub (clock w) (_cache_timeout self) with
         | Raise e => (Raise e, self, w)
         | Ok limit =>
             if match _last_read self with
                | Some last => limit >? last
                | None => false
                end
             then (fill_cache;; read_cache parameter) self w
             else (cached_field parameter self, self, w)
         end.
Proof.
  unfold parameter_value. rewrite M_bind_unfold. unfold get_self at 1.
  destruct (negb read_cached || bool_decide (_last_read self = None));
    [reflexivity|].
  rewrite M_bind_unfold, stale_test_run.
  destruct (datetime_sub (clock w) (_cache_timeout self)) as [limit|e];
    [|reflexivity].
  destruct (match _last_read self with
            | Some last => limit >? last
            | None => false
            end); [reflexivity|].
  rewrite M_bind_unfold. apply read_cache_run.
Qed.

Lemma parameter_value_skip parameter self w last :
  _last_read self = Some last →
  datetime_in_range (clock w - _cache_timeout self) →
  clock w - _cache_timeout self ≤ last →
  parameter_value parameter true self w = (cached_field parameter self, self, w).
Proof.
  intros Hlast Hrange Hfresh. rewrite parameter_value_run, Hlast.
  rewrite bool_decide_eq_false_2 by discriminate. cbn [negb orb].
  rewrite (datetime_sub_in_range _ _ Hrange).
  replace (clock w - _cache_timeout self >? last) with false
    by (symmetry; rewrite Z.gtb_ltb; apply Z.ltb_ge; lia).
  reflexivity.
Qed.

Lemma parameter_value_fill parameter read_cached self w :
  read_cached = false
  ∨ _last_read self = None
  ∨ (∃ last, _last_read self = Some last ∧
             datetime_in_range (clock w - _cache_timeout self) ∧
             last < clock w - _cache_timeout self) →
  parameter_value parameter read_cached self w
  = (fill_cache;; read_cache parameter) self w.
Proof.
  intros H. rewrite parameter_value_run.
  destruct H as [->|[->|(last & -> & Hrange & Hlt)]]; [done| |].
  - by destruct read_cached.
  - rewrite (datetime_sub_in_range _ _ Hrange).
    replace (clock w - _cache_timeout self >? last) with true
      by (symmetry; rewrite Z.gtb_ltb; apply Z.ltb_lt; lia).
    by destruct (negb read_cached || bool_decide (Some last = None)).
Qed.

(** A timestamp is present and [now - ttl] is no [datetime]: the test
    raises before anything is read or written. *)
Lemma parameter_value_overflow parameter self w :
  ¬ test_defined self (clock w) →
  parameter_value parameter true self w = (Raise OverflowError, self, w).
Proof.
  intros H. rewrite parameter_value_run.
  destruct (_last_read self) as [last|] eqn:E;
    [|exfalso; apply H; by left].
  rewrite bool_decide_eq_false_2 by discriminate. cbn [negb orb].
  rewrite datetime_sub_out_of_range; [done|].
  intros Hrange. apply H. by right.
Qed.

Lemma fill_then_read_contacts parameter self w :
  link_contacted w (world_of ((fill_cache;; read_cache parameter) self w)).
Proof.
  apply link_contacted_bind; [apply fill_cache_contacts|].
  intros _. apply (post_read_cache _ calls_extended_refl).
Qed.

Lemma not_fresh_cases self now :
  ¬ fresh self now →
  _last_read self = None
  ∨ (∃ last, _last_read self = Some last ∧ last < now - _cache_timeout self).
Proof.
  intros H. destruct (_last_read self) as [last|] eqn:E; [right|by left].
  exists last. split; [done|].
  destruct (Z.lt_ge_cases last (now - _cache_timeout self)); [done|].
  exfalso. apply H. exists last. split; [done|lia].
Qed.

Lemma not_fresh_fill_triggered parameter self w :
  test_defined self (clock w) →
  ¬ fresh self (clock w) → fill_triggered parameter self w.
Proof.
  intros Hdef H. apply not_fresh_cases in H.
  assert (parameter_value parameter true self w
          = (fill_cache;; read_cache parameter) self w) as Hpv.
  { apply parameter_value_fill. right.
    destruct H as [H|(last & Hlast & Hlt)]; [by left|right].
    exists last. split; [done|]. split; [|done].
    destruct Hdef as [Hnone|Hrange]; [|done].
    rewrite Hnone in Hlast. discriminate Hlast. }
  split; [done|]. rewrite Hpv. apply fill_then_read_contacts.
Qed.

Lemma fresh_skip parameter self w :
  test_defined self (clock w) →
  fresh self (clock w) →
  parameter_value parameter true self w = (cached_field parameter self, self, w).
Proof.
  intros Hdef (last & Hlast & Hle).
  apply (parameter_value_skip _ _ _ last); [done| |lia].
  destruct Hdef as [Hnone|Hrange]; [|done].
  rewrite Hnone in Hlast. discriminate Hlast.
Qed.

Lemma init_fields mac product_id cache_timeout token self :
  __init__ mac product_id cache_timeout token = Ok self →
  ∃ reversed ttl,
    reverseMac mac = Ok reversed ∧ timedelta cache_timeout = Ok ttl ∧
    self = mkMiKettle mac reversed None ttl None None false false
             NoPeripheral false product_id token.
Proof.
  unfold __init__.
  destruct (reverseMac mac) as [reversed|];
    [rewrite result_bind_Ok|by rewrite result_bind_Raise].
  destruct (timedelta cache_timeout) as [ttl|];
    [rewrite result_bind_Ok|by rewrite result_bind_Raise].
  intros [= <-]. by exists reversed, ttl.
Qed.

(** ** Cached reader: the claims *)







(** C5, as the code has it. When the freshness test can be evaluated (no
    timestamp, or [now - ttl] is a date [datetime] can hold),
    [parameter_value(_, True)] skips the fill, touching neither handle
    nor link, exactly when [_last_read] is present with
    [now - _last_read <= ttl], and runs a fill, which calls the
    peripheral, otherwise. When the fill is skipped the call returns the
    requested field of the cached reading if there is one, and raises if
    there is none. When the test cannot be evaluated the call raises
    [OverflowError] and touches nothing. With a ttl of 600 s a timestamp
    500 s old is fresh and one 700 s old is not. *)
Theorem parameter_value_cache_policy
    (parameter : string) (self : MiKettle) (w : World) :
  (test_defined self (clock w) →
   (fresh self (clock w) ↔
    world_of (parameter_value parameter true self w) = w) ∧
   (fresh self (clock w) →
    parameter_value parameter true self w
    = (cached_field parameter self, self, w)) ∧
   (fresh self (clock w) →
    ∀ c v, _cache self = Some c → c !! parameter = Some v →
           served_from_cache parameter self w) ∧
   (fresh self (clock w) → _cache self = None →
    raises (result_of (parameter_value parameter true self w))) ∧
   (¬ fresh self (clock w) → fill_triggered parameter self w)) ∧
  (¬ test_defined self (clock w) →
   parameter_value parameter true self w = (Raise OverflowError, self, w)) ∧
  (_cache_timeout self = timedelta_seconds 600 →
   _last_read self = Some (clock w - timedelta_seconds 500) →
   fresh self (clock w)) ∧
  (_cache_timeout self = timedelta_seconds 600 →
   _last_read self = Some (clock w - timedelta_seconds 700) →
   ¬ fresh self (clock w)).
Proof.
  split; [|split; [|split]].
  - intros Hdef.
    assert (¬ fresh self (clock w) →
            world_of (parameter_value parameter true self w) ≠ w) as Hchanged.
    { intros Hnf.
      destruct (not_fresh_fill_triggered parameter self w Hdef Hnf) as [_ Hc].
      by apply link_contacted_neq in Hc. }
    split; [split|split; [|split; [|split]]].
    + intros Hf. by rewrite (fresh_skip _ _ _ Hdef Hf).
    + intros Hw.
      destruct (_last_read self) as [last|] eqn:E.
      * destruct (Z.le_gt_cases (clock w - last) (_cache_timeout self))
          as [Hle|Hgt].
        { by exists last. }
        exfalso. apply Hchanged; [|done].
        intros (last' & Hl & Hle). rewrite E in Hl. injection Hl as <-. lia.
      * exfalso. apply Hchanged; [|done].
        intros (last' & Hl & _). rewrite E in Hl. discriminate Hl.
    + by apply fresh_skip.
    + intros Hf c v Hc Hv. exists c, v. split; [done|]. split; [done|].
      rewrite (fresh_skip _ _ _ Hdef Hf). unfold cached_field, dict_get.
      by rewrite Hc, Hv.
    + intros Hf Hc. rewrite (fresh_skip _ _ _ Hdef Hf). unfold cached_field.
      rewrite Hc. by eexists.
    + by apply not_fresh_fill_triggered.
  - apply parameter_value_overflow.
  - intros Httl Hlast. exists (clock w - timedelta_seconds 500).
    split; [done|]. rewrite Httl. unfold timedelta_seconds. lia.
  - intros Httl Hlast (last & Hl & Hle). rewrite Hlast in Hl.
    injection Hl as <-. rewrite Httl in Hle. unfold timedelta_seconds in Hle. lia.
Qed.

Lemma parameter_value_cache_policy_witness :
  fresh (set_last_read (Some (timedelta_seconds 500))
           (set_cache (Some sample_reading) default_kettle))
        (timedelta_seconds 1000) ∧
  served_from_cache MI_ACTION
    (set_last_read (Some (timedelta_seconds 500))
       (set_cache (Some sample_reading) default_kettle))
    (unreachable_link (timedelta_seconds 1000)) ∧
  fill_triggered MI_ACTION
    (set_last_read (Some (timedelta_seconds 300))
       (set_cache (Some sample_reading) default_kettle))
    (unreachable_link (timedelta_seconds 1000)).
Proof.
  destruct (parameter_value_cache_policy MI_ACTION
              (set_last_read (Some (timedelta_seconds 500))
                 (set_cache (Some sample_reading) default_kettle))
              (unreachable_link (timedelta_seconds 1000)))
    as (Hfreshly & _ & Hfresh & _).
  destruct Hfreshly as (_ & _ & Hserve & _ & _); [right; by vm_compute|].
  destruct (parameter_value_cache_policy MI_ACTION
              (set_last_read (Some (timedelta_seconds 300))
                 (set_cache (Some sample_reading) default_kettle))
              (unreachable_link (timedelta_seconds 1000)))
    as (Hstalely & _ & _ & Hstale).
  destruct Hstalely as (_ & _ & _ & _ & Hfill); [right; by vm_compute|].
  assert (fresh (set_last_read (Some (timedelta_seconds 500))
                   (set_cache (Some sample_reading) default_kettle))
                (timedelta_seconds 1000)) as Hf
    by (apply Hfresh; reflexivity).
  refine (conj Hf (conj (Hserve Hf sample_reading (PStr "heating") _ _)
                        (Hfill (Hstale _ _))));
    reflexivity.
Defined.

(** C5 as stated fails: within the five minutes after a failed first
    read the timestamp is fresh and no reading is cached, and
    [parameter_value(_, True)] neither serves a reading nor runs a fill. *)
Lemma backoff_neither_serves_nor_fills :
  _cache kettle_after_failed_read = None ∧
  fresh kettle_after_failed_read (timedelta_seconds 1100) ∧
  ¬ (served_from_cache MI_ACTION kettle_after_failed_read
       (unreachable_link (timedelta_seconds 1100))
     ∨ fill_triggered MI_ACTION kettle_after_failed_read
         (unreachable_link (timedelta_seconds 1100))).
Proof.
  assert (fresh kettle_after_failed_read (timedelta_seconds 1100)) as Hf.
  { exists (timedelta_seconds 700). split; [by vm_compute|].
    vm_compute. discriminate. }
  assert (test_defined kettle_after_failed_read
            (clock (unreachable_link (timedelta_seconds 1100)))) as Hdef
    by (right; by vm_compute).
  split; [by vm_compute|]. split; [exact Hf|].
  intros [(c & v & Hc & _)|[_ Hcontact]].
  - vm_compute in Hc. discriminate Hc.
  - rewrite (fresh_skip MI_ACTION kettle_after_failed_read
               (unreachable_link (timedelta_seconds 1100)) Hdef Hf) in Hcontact.
    by apply link_contacted_neq in Hcontact.
Qed.

(** ** Further properties of the cipher engine *)

Lemma cipher_involutive key p :
  key ≠ [] → Forall is_byte p →
  ∃ c, cipher key p = Ok c ∧ length c = length p ∧ Forall is_byte c ∧
       cipher key c = Ok p.
Proof.
  intros Hk Hp.
  destruct (cipher_keystream key (length p) Hk) as (ks & Hlen & Hc).
  exists (zip_with crypt_byte p ks).
  assert (length (zip_with crypt_byte p ks) = length p) as Hl
    by (rewrite length_zip_with; lia).
  split; [by apply Hc|]. split; [done|].
  split; [apply zip_crypt_byte_bytes|].
  rewrite Hc by done. by rewrite zip_crypt_byte_involutive.
Qed.

(** X1. With a non-empty key [cipher] returns, for any input, as many
    bytes as the input has, each in 0..255. *)
Theorem cipher_length_and_range (key input : bytes) :
  key ≠ [] →
  ∃ out, cipher key input = Ok out ∧ length out = length input ∧
         Forall is_byte out.
Proof.
  intros Hk.
  destruct (cipher_keystream key (length input) Hk) as (ks & Hlen & Hc).
  exists (zip_with crypt_byte input ks). split; [by apply Hc|].
  split; [rewrite length_zip_with; lia|apply zip_crypt_byte_bytes].
Qed.

Lemma cipher_length_and_range_witness :
  [7; 8] ≠ [] ∧
  ∃ out, cipher [7; 8] [300; -1; 5] = Ok out ∧
         length out = length [300; -1; 5]%Z ∧ Forall is_byte out.
Proof.
  assert ([7; 8] ≠ @nil Z) as H by discriminate.
  exact (conj H (cipher_length_and_range [7; 8] [300; -1; 5] H)).
Defined.

Lemma _cipherInit_empty_key : _cipherInit [] = Raise ZeroDivisionError.
Proof. vm_compute. reflexivity. Qed.

(** X2. With the empty key the key schedule divides by zero:
    [_cipherInit], [cipher], [challengeResponse] and [checkConfirmation]
    raise [ZeroDivisionError] whatever the input, and so does
    [generateEkey] with an empty token. *)
Theorem empty_key_raises_ZeroDivisionError (input : bytes) :
  _cipherInit [] = Raise ZeroDivisionError ∧
  cipher [] input = Raise ZeroDivisionError ∧
  challengeResponse [] = Raise ZeroDivisionError ∧
  checkConfirmation [] input = Raise ZeroDivisionError ∧
  generateEkey [] input = Raise ZeroDivisionError.
Proof.
  assert (∀ i, cipher [] i = Raise ZeroDivisionError) as Hc.
  { intros i. unfold cipher. by rewrite _cipherInit_empty_key. }
  split; [apply _cipherInit_empty_key|]. split; [apply Hc|].
  split; [apply Hc|]. split.
  - unfold checkConfirmation. by rewrite Hc.
  - unfold generateEkey. by rewrite Hc.
Qed.

Lemma crypt_byte_lxor x k : is_byte x → crypt_byte x k = Z.lxor x (crypt_byte 0 k).
Proof.
  intros Hx. unfold crypt_byte. apply Z.bits_inj'. intros n Hn.
  change 255 with (Z.ones 8).
  repeat (rewrite Z.land_spec || rewrite Z.lxor_spec).
  rewrite Z.testbit_ones_nonneg, Z.bits_0 by lia.
  destruct (Z.ltb_spec n 8).
  - by rewrite !andb_true_r.
  - rewrite !andb_false_r, xorb_false_r. symmetry.
    rewrite <- (Z.mod_small x (2 ^ 8)) by (unfold is_byte in Hx; lia).
    apply Z.mod_pow2_bits_high. lia.
Qed.

Lemma zip_crypt_byte_lxor p ks :
  Forall is_byte p → length ks = length p →
  zip_with crypt_byte p ks
  = zip_with Z.lxor p (zip_with crypt_byte (replicate (length p) 0) ks).
Proof.
  intros Hp. revert ks. induction Hp as [|x p Hx _ IH]; intros [|k ks] Hlen;
    simpl in *; try done.
  rewrite (crypt_byte_lxor x k Hx). f_equal. apply IH. lia.
Qed.

(** X3. With a non-empty key, encrypting a byte sequence is XORing it,
    byte by byte, with the encryption of as many zero bytes: the
    keystream depends on the key and the length only. *)
Theorem cipher_xors_keystream (key p : bytes) :
  key ≠ [] → Forall is_byte p →
  ∃ ks, cipher key (replicate (length p) 0) = Ok ks ∧
        length ks = length p ∧
        cipher key p = Ok (zip_with Z.lxor p ks).
Proof.
  intros Hk Hp.
  destruct (cipher_keystream key (length p) Hk) as (ks & Hlen & Hc).
  exists (zip_with crypt_byte (replicate (length p) 0) ks).
  split; [apply Hc, length_replicate|].
  split; [rewrite length_zip_with, length_replicate; lia|].
  rewrite Hc by done. f_equal. by apply zip_crypt_byte_lxor.
Qed.

Lemma cipher_xors_keystream_witness :
  [75; 101; 121] ≠ [] ∧ Forall is_byte [80; 108; 97] ∧
  ∃ ks, cipher [75; 101; 121] (replicate (length [80; 108; 97]%Z) 0) = Ok ks ∧
        length ks = length [80; 108; 97]%Z ∧
        cipher [75; 101; 121] [80; 108; 97] = Ok (zip_with Z.lxor [80; 108; 97] ks).
Proof.
  assert ([75; 101; 121] ≠ @nil Z) as Hk by discriminate.
  assert (Forall is_byte [80; 108; 97]) as Hp
    by (repeat constructor; unfold is_byte; lia).
  exact (conj Hk (conj Hp (cipher_xors_keystream _ _ Hk Hp))).
Defined.

(** ** Further properties of the key derivation *)

Lemma _CONFIRMATION_bytes : Forall is_byte _CONFIRMATION.
Proof. repeat constructor; unfold is_byte; lia. Qed.

Lemma _SESSION_END_bytes : Forall is_byte _SESSION_END.
Proof. repeat constructor; unfold is_byte; lia. Qed.

(** X4. For every non-empty key, the confirmation constant encrypted
    under the key is accepted by [checkConfirmation] under the same key. *)
Theorem checkConfirmation_accepts_encrypted_constant (ekey : bytes) :
  ekey ≠ [] →
  ∃ c, cipher ekey _CONFIRMATION = Ok c ∧ checkConfirmation ekey c = Ok true.
Proof.
  intros Hk.
  destruct (cipher_involutive ekey _CONFIRMATION Hk _CONFIRMATION_bytes)
    as (c & Hc & _ & _ & Hback).
  exists c. split; [done|].
  unfold checkConfirmation. rewrite Hback, result_bind_Ok.
  by rewrite bool_decide_eq_true_2.
Qed.

Lemma checkConfirmation_accepts_encrypted_constant_witness :
  _TOKEN ≠ [] ∧
  ∃ c, cipher _TOKEN _CONFIRMATION = Ok c ∧ checkConfirmation _TOKEN c = Ok true.
Proof.
  assert (_TOKEN ≠ []) as H by discriminate.
  exact (conj H (checkConfirmation_accepts_encrypted_constant _TOKEN H)).
Defined.

(** X5. A confirmation shorter than 4 bytes is never accepted:
    [checkConfirmation] answers [False], without raising, for every
    non-empty key. *)
Theorem checkConfirmation_rejects_short (ekey confirmation : bytes) :
  ekey ≠ [] → (length confirmation < 4)%nat →
  checkConfirmation ekey confirmation = Ok false.
Proof.
  intros Hk Hlen.
  destruct (cipher_keystream ekey (length confirmation) Hk) as (ks & Hks & Hc).
  unfold checkConfirmation. rewrite Hc, result_bind_Ok by done.
  rewrite bool_decide_eq_false_2; [done|].
  intros Heq. apply (f_equal length) in Heq.
  unfold slice in Heq. rewrite length_take, length_drop, length_zip_with in Heq.
  change (length _CONFIRMATION) with 4%nat in Heq. lia.
Qed.

Lemma checkConfirmation_rejects_short_witness :
  _TOKEN ≠ [] ∧ (length [201; 88; 154]%Z < 4)%nat ∧
  checkConfirmation _TOKEN [201; 88; 154] = Ok false.
Proof.
  assert (_TOKEN ≠ []) as H by discriminate.
  assert (length [201; 88; 154]%Z < 4)%nat as H' by (simpl; lia).
  exact (conj H (conj H' (checkConfirmation_rejects_short _ _ H H'))).
Defined.

(** X6. For every non-empty key [challengeResponse] returns 4 bytes,
    and decrypting them under the same key gives the session-end marker
    back. *)
Theorem challengeResponse_decrypts_to_session_end (ekey : bytes) :
  ekey ≠ [] →
  ∃ r, challengeResponse ekey = Ok r ∧ length r = 4%nat ∧
       Forall is_byte r ∧ cipher ekey r = Ok _SESSION_END.
Proof.
  intros Hk.
  destruct (cipher_involutive ekey _SESSION_END Hk _SESSION_END_bytes)
    as (c & Hc & Hlen & Hb & Hback).
  exists c. split; [exact Hc|]. split; [exact Hlen|]. split; [exact Hb|exact Hback].
Qed.

Lemma challengeResponse_decrypts_to_session_end_witness :
  _TOKEN ≠ [] ∧
  ∃ r, challengeResponse _TOKEN = Ok r ∧ length r = 4%nat ∧
       Forall is_byte r ∧ cipher _TOKEN r = Ok _SESSION_END.
Proof.
  assert (_TOKEN ≠ []) as H by discriminate.
  exact (conj H (challengeResponse_decrypts_to_session_end _TOKEN H)).
Defined.

Lemma getitem_raises_IndexError l i e : getitem l i = Raise e → e = IndexError.
Proof.
  unfold getitem. destruct (_ && _); [|by intros [= <-]].
  destruct (l !! _); [discriminate|by intros [= <-]].
Qed.

Lemma getitem_Ok_lookup l i x :
  0 ≤ i → getitem l i = Ok x → l !! Z.to_nat i = Some x.
Proof.
  intros Hi. unfold getitem. rewrite norm_index_nonneg by done.
  destruct (_ && _); [|discriminate].
  destruct (l !! Z.to_nat i); [by intros [= <-]|discriminate].
Qed.

(** X7. For a reversed MAC of at least 6 bytes and any integer product
    id, [mixA] and [mixB] each return 8 bytes in 0..255; for a shorter
    MAC both raise [IndexError]. *)
Theorem mix_keys_shape (mac : bytes) (productID : Z) :
  ((6 ≤ length mac)%nat → Forall is_byte mac →
   ∃ a b, mixA mac productID = Ok a ∧ mixB mac productID = Ok b ∧
          length a = 8%nat ∧ length b = 8%nat ∧
          Forall is_byte a ∧ Forall is_byte b) ∧
  ((length mac < 6)%nat →
   mixA mac productID = Raise IndexError ∧
   mixB mac productID = Raise IndexError).
Proof.
  split.
  - intros Hlen Hb.
    destruct mac as [|m0 [|m1 [|m2 [|m3 [|m4 [|m5 rest]]]]]]; simpl in Hlen; try lia.
    repeat match goal with
           | H : Forall is_byte (_ :: _) |- _ => apply Forall_cons in H as [? H]
           end.
    pose proof (land_255_byte productID).
    pose proof (land_255_byte (Z.shiftr productID 8)).
    eexists _, _. unfold mixA, mixB.
    rewrite (getitem_lookup _ 0 m0), (getitem_lookup _ 1 m1),
      (getitem_lookup _ 2 m2), (getitem_lookup _ 4 m4),
      (getitem_lookup _ 5 m5) by done.
    rewrite !result_bind_Ok.
    rewrite !mk_bytes_ok by (repeat (constructor; [assumption|]); constructor).
    repeat split; repeat (constructor; [assumption|]); constructor.
  - intros Hlen.
    assert (getitem mac 5 = Raise IndexError) as H5
      by (apply getitem_out_of_range; unfold len; lia).
    unfold mixA, mixB. rewrite H5.
    split.
    + destruct (getitem mac 0) as [m0|e0] eqn:E0;
        [rewrite result_bind_Ok|by rewrite (getitem_raises_IndexError _ _ _ E0)].
      destruct (getitem mac 2) as [m2|e2] eqn:E2;
        [rewrite result_bind_Ok|by rewrite (getitem_raises_IndexError _ _ _ E2)].
      done.
    + destruct (getitem mac 0) as [m0|e0] eqn:E0;
        [rewrite result_bind_Ok|by rewrite (getitem_raises_IndexError _ _ _ E0)].
      destruct (getitem mac 2) as [m2|e2] eqn:E2;
        [rewrite result_bind_Ok|by rewrite (getitem_raises_IndexError _ _ _ E2)].
      done.
Qed.

Lemma mix_keys_shape_witness :
  (∃ a b, mixA [127; 241; 194; 220; 17; 120] 131 = Ok a ∧
          mixB [127; 241; 194; 220; 17; 120] 131 = Ok b ∧
          length a = 8%nat ∧ length b = 8%nat ∧
          Forall is_byte a ∧ Forall is_byte b) ∧
  mixA [127; 241; 194] 131 = Raise IndexError ∧
  mixB [127; 241; 194] 131 = Raise IndexError.
Proof.
  split.
  - apply (proj1 (mix_keys_shape [127; 241; 194; 220; 17; 120] 131)).
    + simpl. lia.
    + repeat constructor; unfold is_byte; lia.
  - apply (proj2 (mix_keys_shape [127; 241; 194] 131)). simpl. lia.
Defined.

Lemma ekey_xor_out_of_range tick ekey (i : nat) :
  (length tick ≤ i)%nat ∨ (length ekey ≤ i)%nat →
  ekey_xor tick ekey (Z.of_nat i) = Raise IndexError.
Proof.
  intros H. unfold ekey_xor.
  destruct (getitem ekey (Z.of_nat i)) as [e|err] eqn:E.
  - rewrite result_bind_Ok. destruct H as [H|H].
    + by rewrite getitem_out_of_range by (unfold len; lia).
    + rewrite getitem_out_of_range in E by (unfold len; lia). discriminate E.
  - by rewrite (getitem_raises_IndexError _ _ _ E).
Qed.

(** X8. With a non-empty token of bytes and a challenge shorter than
    3 bytes, [generateEkey] raises [IndexError]: the XOR loop reads past
    the end of the encrypted challenge (or of a token that is shorter
    still). *)
Theorem generateEkey_short_challenge (token challenge : bytes) :
  token ≠ [] → Forall is_byte token → (length challenge < 3)%nat →
  generateEkey token challenge = Raise IndexError.
Proof.
  intros Hne Htok Hch.
  destruct (cipher_keystream token (length challenge) Hne) as (ks & Hks & Hc).
  specialize (Hc challenge eq_refl).
  unfold generateEkey. rewrite Hc, result_bind_Ok, (mk_bytes_ok _ Htok), result_bind_Ok.
  change (seqZ 0 3) with [Z.of_nat 0; Z.of_nat 1; Z.of_nat 2].
  destruct token as [|t0 rest]; [done|].
  apply Forall_cons in Htok as [Ht0 Hrest].
  destruct challenge as [|c0 [|c1 [|c2 cs]]]; simpl in Hch; try lia;
    destruct ks as [|k0 [|k1 [|k2 kss]]]; simpl in Hks; try lia;
    cbn [zip_with foldM].
  - by rewrite ekey_xor_out_of_range by (left; simpl; lia).
  - rewrite (ekey_xor_in_range _ _ 0 t0 (crypt_byte c0 k0))
      by (reflexivity || assumption || apply crypt_byte_is_byte).
    rewrite result_bind_Ok.
    by rewrite ekey_xor_out_of_range by (left; simpl; lia).
  - rewrite (ekey_xor_in_range _ _ 0 t0 (crypt_byte c0 k0))
      by (reflexivity || assumption || apply crypt_byte_is_byte).
    rewrite result_bind_Ok. cbn [insert list_insert].
    destruct rest as [|t1 rest].
    + by rewrite ekey_xor_out_of_range by (right; simpl; lia).
    + apply Forall_cons in Hrest as [Ht1 Hrest].
      rewrite (ekey_xor_in_range _ _ 1 t1 (crypt_byte c1 k1))
        by (reflexivity || assumption || apply crypt_byte_is_byte).
      rewrite result_bind_Ok.
      by rewrite ekey_xor_out_of_range by (left; simpl; lia).
Qed.

Lemma generateEkey_short_challenge_witness :
  _TOKEN ≠ [] ∧ Forall is_byte _TOKEN ∧ (length [1; 2]%Z < 3)%nat ∧
  generateEkey _TOKEN [1; 2] = Raise IndexError.
Proof.
  assert (_TOKEN ≠ []) as H1 by discriminate.
  assert (Forall is_byte _TOKEN) as H2
    by (repeat constructor; unfold is_byte; lia).
  assert (length [1; 2]%Z < 3)%nat as H3 by (simpl; lia).
  exact (conj H1 (conj H2 (conj H3 (generateEkey_short_challenge _ _ H1 H2 H3)))).
Defined.

(** ** Further properties of the status decoder *)

Lemma bytes_to_int_fold bs acc :
  fold_left bytes_to_int_step bs acc = acc * 256 ^ len bs + bytes_to_int bs.
Proof.
  unfold bytes_to_int, len. revert acc.
  induction bs as [|b bs IH]; intros acc.
  - simpl. lia.
  - cbn [fold_left length]. rewrite (IH (bytes_to_int_step acc b)).
    rewrite (IH (bytes_to_int_step 0 b)). unfold bytes_to_int_step.
    rewrite Nat2Z.inj_succ, Z.pow_succ_r by lia. lia.
Qed.

(** X9. [bytes_to_int] reads its argument as a big-endian base-256
    number: the value of a concatenation is the value of the head shifted
    by the length of the tail plus the value of the tail, and for bytes
    in 0..255 the value lies in [0, 256^n). *)
Theorem bytes_to_int_big_endian :
  (∀ hi lo : bytes,
     bytes_to_int (hi ++ lo) = bytes_to_int hi * 256 ^ len lo + bytes_to_int lo) ∧
  (∀ bs : bytes, Forall is_byte bs → 0 ≤ bytes_to_int bs < 256 ^ len bs).
Proof.
  split.
  - intros hi lo. unfold bytes_to_int at 1.
    rewrite fold_left_app, bytes_to_int_fold. reflexivity.
  - intros bs. induction bs as [|b bs IH] using rev_ind; intros Hb.
    + vm_compute. split; [discriminate|reflexivity].
    + apply Forall_app in Hb as [Hbs Hb]. apply Forall_cons in Hb as [Hb _].
      specialize (IH Hbs). unfold bytes_to_int. rewrite fold_left_app.
      cbn [fold_left]. fold (bytes_to_int bs). unfold bytes_to_int_step, len.
      rewrite length_app, Nat2Z.inj_add. cbn [length].
      change (Z.of_nat 1) with 1. rewrite Z.pow_add_r, Z.pow_1_r by lia.
      unfold len in IH. unfold is_byte in Hb. nia.
Qed.

Lemma bytes_to_int_big_endian_witness :
  bytes_to_int ([1] ++ [2; 3]) = bytes_to_int [1] * 256 ^ len [2; 3] + bytes_to_int [2; 3] ∧
  0 ≤ bytes_to_int [1; 2; 3] < 256 ^ len [1; 2; 3].
Proof.
  split.
  - apply (proj1 bytes_to_int_big_endian).
  - apply (proj2 bytes_to_int_big_endian).
    repeat constructor; unfold is_byte; lia.
Defined.

Lemma slice_7_8 (data : bytes) :
  bytes_to_int (slice data 7 8) = default 0 (data !! 7%nat).
Proof.
  unfold slice. replace (data !! 7%nat) with (drop 7 data !! 0%nat)
    by (rewrite lookup_drop; f_equal).
  destruct (drop 7 data) as [|b l]; [reflexivity|].
  change (bytes_to_int_step 0 b = b). unfold bytes_to_int_step. lia.
Qed.

(** X10. Whenever [_parse_data] returns, bytes 0, 1, 4, 5 and 6 of the
    payload exist, bytes 0, 1 and 6 are mapped codes, and the reading has
    exactly the six fields: the mapped names, bytes 4 and 5 as the two
    temperatures, and byte 7 (0 when the payload has 7 bytes) as the keep
    warm time. Bytes 2, 3 and those from 8 on are not looked at. *)
Theorem parse_data_fields (data : bytes) (res : gmap string pyval) :
  _parse_data data = Ok res →
  ∃ d0 d1 d4 d5 d6 action mode kwtype,
    data !! 0%nat = Some d0 ∧ data !! 1%nat = Some d1 ∧
    data !! 4%nat = Some d4 ∧ data !! 5%nat = Some d5 ∧
    data !! 6%nat = Some d6 ∧
    MI_ACTION_MAP !! d0 = Some action ∧
    MI_MODE_MAP !! d1 = Some mode ∧
    MI_KW_TYPE_MAP !! d6 = Some kwtype ∧
    res !! MI_ACTION = Some (PStr action) ∧
    res !! MI_MODE = Some (PStr mode) ∧
    res !! MI_SET_TEMPERATURE = Some (PInt d4) ∧
    res !! MI_CURRENT_TEMPERATURE = Some (PInt d5) ∧
    res !! MI_KW_TYPE = Some (PStr kwtype) ∧
    res !! MI_KW_TIME = Some (PInt (default 0 (data !! 7%nat))) ∧
    dom res = {[ MI_ACTION; MI_MODE; MI_SET_TEMPERATURE;
                 MI_CURRENT_TEMPERATURE; MI_KW_TYPE; MI_KW_TIME ]}.
Proof.
  unfold _parse_data, dict_get. intros H.
  destruct (getitem data 0) as [d0|] eqn:E0;
    [rewrite result_bind_Ok in H|discriminate H].
  destruct (MI_ACTION_MAP !! d0) as [action|] eqn:Ea;
    [rewrite result_bind_Ok in H|discriminate H].
  destruct (getitem data 1) as [d1|] eqn:E1;
    [rewrite result_bind_Ok in H|discriminate H].
  destruct (MI_MODE_MAP !! d1) as [mode|] eqn:Em;
    [rewrite result_bind_Ok in H|discriminate H].
  destruct (getitem data 4) as [d4|] eqn:E4;
    [rewrite result_bind_Ok in H|discriminate H].
  destruct (getitem data 5) as [d5|] eqn:E5;
    [rewrite result_bind_Ok in H|discriminate H].
  destruct (getitem data 6) as [d6|] eqn:E6;
    [rewrite result_bind_Ok in H|discriminate H].
  destruct (MI_KW_TYPE_MAP !! d6) as [kwtype|] eqn:Et;
    [rewrite result_bind_Ok in H|discriminate H].
  injection H as <-. rewrite slice_7_8.
  apply getitem_Ok_lookup in E0, E1, E4, E5, E6; try lia.
  exists d0, d1, d4, d5, d6, action, mode, kwtype.
  unfold MI_ACTION, MI_MODE, MI_SET_TEMPERATURE, MI_CURRENT_TEMPERATURE,
    MI_KW_TYPE, MI_KW_TIME.
  repeat (split; [done || (by simplify_map_eq)|]).
  rewrite !dom_insert_L, dom_empty_L. set_solver.
Qed.

Lemma parse_data_sample : _parse_data [1; 1; 0; 0; 65; 23; 0] = Ok sample_reading.
Proof. vm_compute. reflexivity. Qed.

Lemma parse_data_fields_witness :
  _parse_data [1; 1; 0; 0; 65; 23; 0] = Ok sample_reading ∧
  ∃ d0 d1 d4 d5 d6 action mode kwtype,
    [1; 1; 0; 0; 65; 23; 0] !! 0%nat = Some d0 ∧
    [1; 1; 0; 0; 65; 23; 0] !! 1%nat = Some d1 ∧
    [1; 1; 0; 0; 65; 23; 0] !! 4%nat = Some d4 ∧
    [1; 1; 0; 0; 65; 23; 0] !! 5%nat = Some d5 ∧
    [1; 1; 0; 0; 65; 23; 0] !! 6%nat = Some d6 ∧
    MI_ACTION_MAP !! d0 = Some action ∧
    MI_MODE_MAP !! d1 = Some mode ∧
    MI_KW_TYPE_MAP !! d6 = Some kwtype ∧
    sample_reading !! MI_ACTION = Some (PStr action) ∧
    sample_reading !! MI_MODE = Some (PStr mode) ∧
    sample_reading !! MI_SET_TEMPERATURE = Some (PInt d4) ∧
    sample_reading !! MI_CURRENT_TEMPERATURE = Some (PInt d5) ∧
    sample_reading !! MI_KW_TYPE = Some (PStr kwtype) ∧
    sample_reading !! MI_KW_TIME
    = Some (PInt (default 0 ([1; 1; 0; 0; 65; 23; 0] !! 7%nat))) ∧
    dom sample_reading = {[ MI_ACTION; MI_MODE; MI_SET_TEMPERATURE;
                            MI_CURRENT_TEMPERATURE; MI_KW_TYPE; MI_KW_TIME ]}.
Proof.
  pose proof parse_data_sample as H.
  exact (conj H (parse_data_fields _ _ H)).
Defined.

(** ** Construction: the reversed MAC *)

Lemma hex_digit_range c h : hex_digit c = Some h → 0 ≤ h < 16.
Proof.
  unfold hex_digit.
  repeat match goal with
         | |- context [if ?b then _ else _] => destruct b eqn:?
         end; intros [= <-];
    repeat match goal with
           | H : (_ && _) = true |- _ => apply andb_true_iff in H as [??]
           end; lia.
Qed.

Lemma fromhex_bytes_bounded (n : nat) :
  ∀ s bs, (String.length s ≤ n)%nat → fromhex s = Ok bs → Forall is_byte bs.
Proof.
  induction n as [|n IH]; intros s bs Hlen H.
  - destruct s; [|simpl in Hlen; lia]. by injection H as <-.
  - destruct s as [|c s]; [by injection H as <-|].
    cbn [fromhex] in H. cbn [String.length] in Hlen.
    destruct (is_space c).
    { apply (IH s); [lia|done]. }
    destruct s as [|d s]; [discriminate H|].
    cbn [String.length] in Hlen.
    destruct (hex_digit c) as [h|] eqn:Eh; [|discriminate H].
    destruct (hex_digit d) as [l|] eqn:El; [|discriminate H].
    destruct (fromhex s) as [rest|] eqn:Er; [|discriminate H].
    rewrite result_bind_Ok in H. injection H as <-.
    apply hex_digit_range in Eh, El.
    constructor; [unfold is_byte; lia|].
    apply (IH s); [lia|done].
Qed.

Lemma fromhex_bytes s bs : fromhex s = Ok bs → Forall is_byte bs.
Proof. by apply (fromhex_bytes_bounded (String.length s)). Qed.

Lemma foldM_ext_in {A B} (f g : A → B → result A) l a :
  (∀ a x, x ∈ l → f a x = g a x) → foldM f a l = foldM g a l.
Proof.
  revert a. induction l as [|x l IH]; intros a H; [done|].
  cbn [foldM]. rewrite H by left.
  destruct (g a x); [rewrite !result_bind_Ok|done].
  apply IH. intros a' y Hy. apply H. by right.
Qed.

(** The loop of [reverseMac] visits the groups from the last to the
    first. *)
Lemma reverseMac_loop (parts : list string) (k : nat) acc :
  (k ≤ length parts)%nat →
  foldM (λ (reversedMac : bytes) (i : Z),
           part ← match parts !! Z.to_nat (Z.of_nat (length parts) - i) with
                  | Some p => Ok p
                  | None => Raise IndexError
                  end;
           b ← fromhex part;
           Ok (reversedMac ++ b))
        acc (seqZ (Z.of_nat (length parts) - Z.of_nat k + 1) (Z.of_nat k))
  = foldM extend_fromhex acc (reverse (take k parts)).
Proof.
  revert acc. induction k as [|k IH]; intros acc Hk.
  - by rewrite take_0.
  - destruct (lookup_lt_is_Some_2 parts k) as [p Hp]; [lia|].
    rewrite seqZ_cons by lia.
    rewrite (take_S_r _ _ _ Hp), reverse_snoc. cbn [foldM].
    replace (Z.to_nat (Z.of_nat (length parts)
                       - (Z.of_nat (length parts) - Z.of_nat (S k) + 1)))
      with k by lia.
    rewrite Hp, result_bind_Ok. fold (extend_fromhex acc p).
    destruct (extend_fromhex acc p) as [acc'|]; [rewrite !result_bind_Ok|done].
    replace (Z.succ (Z.of_nat (length parts) - Z.of_nat (S k) + 1))
      with (Z.of_nat (length parts) - Z.of_nat k + 1) by lia.
    replace (Z.pred (Z.of_nat (S k))) with (Z.of_nat k) by lia.
    apply IH. lia.
Qed.

Lemma reverseMac_groups mac :
  reverseMac mac = foldM extend_fromhex [] (reverse (split_colon mac)).
Proof.
  unfold reverseMac.
  pose proof (reverseMac_loop (split_colon mac) (length (split_colon mac)) []) as H.
  rewrite Z.sub_diag, Z.add_0_l, firstn_all in H. by apply H.
Qed.

Lemma extend_fromhex_Ok acc p bs :
  fromhex p = Ok bs → extend_fromhex acc p = Ok (acc ++ bs).
Proof. intros H. unfold extend_fromhex. by rewrite H. Qed.

Lemma extend_fromhex_Raise acc p e :
  fromhex p = Raise e → extend_fromhex acc p = Raise e.
Proof. intros H. unfold extend_fromhex. by rewrite H. Qed.

Lemma foldM_extend_fromhex parts bss acc :
  Forall2 (λ part bs, fromhex part = Ok bs) parts bss →
  foldM extend_fromhex acc parts = Ok (acc ++ concat bss).
Proof.
  intros H. revert acc. induction H as [|p bs parts bss Hp _ IH]; intros acc.
  - by rewrite app_nil_r.
  - cbn [foldM concat].
    rewrite (extend_fromhex_Ok _ _ _ Hp), result_bind_Ok, IH.
    by rewrite app_assoc.
Qed.

Lemma foldM_extend_fromhex_raises parts acc :
  Exists (λ part, raises (fromhex part)) parts →
  raises (foldM extend_fromhex acc parts).
Proof.
  intros H. revert acc. induction H as [p parts [e He]|p parts _ IH]; intros acc.
  - cbn [foldM]. rewrite (extend_fromhex_Raise _ _ _ He). by exists e.
  - cbn [foldM]. destruct (extend_fromhex acc p) as [acc'|e].
    + rewrite result_bind_Ok. apply IH.
    + by exists e.
Qed.

Lemma split_colon_no_colon p : no_colon p = true → split_colon p = [p].
Proof.
  induction p as [|c p IH]; [done|]. cbn [no_colon split_colon].
  intros [Hc Hp]%andb_true_iff. apply negb_true_iff in Hc. rewrite Hc.
  by rewrite (IH Hp).
Qed.

Lemma split_colon_app p s :
  no_colon p = true →
  split_colon (p +:+ String ":"%char s) = p :: split_colon s.
Proof.
  induction p as [|c p IH].
  - intros _. reflexivity.
  - cbn [no_colon]. intros [Hc Hp]%andb_true_iff. apply negb_true_iff in Hc.
    change (String c p +:+ String ":"%char s)
      with (String c (p +:+ String ":"%char s)).
    cbn [split_colon]. by rewrite Hc, (IH Hp).
Qed.

Lemma split_colon_join_colon parts :
  parts ≠ [] → Forall (λ p, no_colon p = true) parts →
  split_colon (join_colon parts) = parts.
Proof.
  intros Hne H. induction H as [|p parts Hp Hparts IH]; [done|].
  destruct parts as [|q parts].
  - by apply split_colon_no_colon.
  - change (join_colon (p :: q :: parts))
      with (p +:+ String ":"%char (join_colon (q :: parts))).
    rewrite (split_colon_app _ _ Hp). f_equal. by apply IH.
Qed.

(** X11. [reverseMac] takes the groups between the colons from the last
    to the first and appends the bytes each one spells in hexadecimal:
    for groups without a colon that spell one byte each, the result is
    the byte sequence reversed; if some group is not valid hexadecimal
    the call raises. *)
Theorem reverseMac_reverses_groups (parts : list string) :
  parts ≠ [] → Forall (λ p, no_colon p = true) parts →
  (∀ bss, Forall2 (λ part bs, fromhex part = Ok bs) parts bss →
          reverseMac (join_colon parts) = Ok (concat (reverse bss))) ∧
  (∀ bs, Forall2 (λ part b, fromhex part = Ok [b]) parts bs →
         reverseMac (join_colon parts) = Ok (reverse bs)) ∧
  (Exists (λ part, raises (fromhex part)) parts →
   raises (reverseMac (join_colon parts))).
Proof.
  intros Hne Hnc.
  assert (reverseMac (join_colon parts) = foldM extend_fromhex [] (reverse parts))
    as Hr by (by rewrite reverseMac_groups, split_colon_join_colon).
  assert (∀ bss, Forall2 (λ part bs, fromhex part = Ok bs) parts bss →
                 reverseMac (join_colon parts) = Ok (concat (reverse bss))) as H1.
  { intros bss H. rewrite Hr.
    by rewrite (foldM_extend_fromhex _ (reverse bss)) by by apply Forall2_reverse. }
  split; [exact H1|]. split.
  - intros bs H.
    rewrite (H1 ((λ b, [b]) <$> bs)) by by apply Forall2_fmap_r.
    f_equal. rewrite <- fmap_reverse.
    induction (reverse bs) as [|b l IH]; [done|]. cbn. by rewrite IH.
  - intros H. rewrite Hr. apply foldM_extend_fromhex_raises.
    apply Exists_exists in H as (p & Hin & Hp). apply Exists_exists.
    exists p. split; [by apply elem_of_reverse|done].
Qed.

Lemma reverseMac_reverses_groups_witness :
  reverseMac (join_colon ["78"; "11"; "DC"; "C2"; "F1"; "7F"])
  = Ok (reverse [0x78; 0x11; 0xDC; 0xC2; 0xF1; 0x7F]) ∧
  raises (reverseMac (join_colon ["78"; "1"; "DC"])).
Proof.
  split.
  - apply (proj1 (proj2 (reverseMac_reverses_groups
                           ["78"; "11"; "DC"; "C2"; "F1"; "7F"]
                           ltac:(discriminate)
                           ltac:(repeat constructor)))).
    repeat constructor.
  - apply (proj2 (proj2 (reverseMac_reverses_groups
                           ["78"; "1"; "DC"]
                           ltac:(discriminate)
                           ltac:(repeat constructor)))).
    apply Exists_cons_tl, Exists_cons_hd. by exists ValueError.
Defined.

(** X12. Whatever string it is given, the bytes [fromhex] and
    [reverseMac] return are in 0..255, and so is the reversed MAC a
    constructed handle holds. *)
Theorem reversed_mac_is_bytes :
  (∀ s bs, fromhex s = Ok bs → Forall is_byte bs) ∧
  (∀ mac bs, reverseMac mac = Ok bs → Forall is_byte bs) ∧
  (∀ mac product_id cache_timeout token self,
     __init__ mac product_id cache_timeout token = Ok self →
     reverseMac mac = Ok (_reversed_mac self) ∧
     Forall is_byte (_reversed_mac self)).
Proof.
  assert (∀ parts acc bs,
            Forall is_byte acc → foldM extend_fromhex acc parts = Ok bs →
            Forall is_byte bs) as Hfold.
  { induction parts as [|p parts IH]; intros acc bs Hacc H.
    - by injection H as <-.
    - cbn [foldM] in H.
      destruct (fromhex p) as [b|e] eqn:Ep;
        [rewrite (extend_fromhex_Ok _ _ _ Ep), result_bind_Ok in H
        |rewrite (extend_fromhex_Raise _ _ _ Ep) in H; discriminate H].
      apply (IH (acc ++ b)); [|done].
      apply Forall_app. split; [done|by apply (fromhex_bytes p)]. }
  assert (∀ mac bs, reverseMac mac = Ok bs → Forall is_byte bs) as Hrev.
  { intros mac bs H. rewrite reverseMac_groups in H.
    exact (Hfold _ [] bs (Forall_nil_2 _) H). }
  split; [exact fromhex_bytes|]. split; [exact Hrev|].
  intros mac product_id cache_timeout token self Hinit.
  apply init_fields in Hinit as (reversed & ttl & E & _ & ->).
  split; [done|by apply (Hrev mac)].
Qed.

Lemma reversed_mac_is_bytes_witness :
  __init__ _MAC 131 600 _TOKEN = Ok default_kettle ∧
  reverseMac _MAC = Ok (_reversed_mac default_kettle) ∧
  Forall is_byte (_reversed_mac default_kettle).
Proof.
  assert (__init__ _MAC 131 600 _TOKEN = Ok default_kettle) as H
    by (vm_compute; reflexivity).
  exact (conj H (proj2 (proj2 reversed_mac_is_bytes) _ _ _ _ _ H)).
Defined.

(** ** Further properties of the cached reader *)

Lemma datetime_sub_Raise t d e : datetime_sub t d = Raise e → e = OverflowError.
Proof.
  unfold datetime_sub. destruct (datetime_in_rangeb (t - d)); [discriminate|].
  by intros [= <-].
Qed.

(** [fill_cache] returns, or its handler raises on the backoff date. *)
Lemma fill_cache_outcome self w :
  result_of (fill_cache self w) = Ok () ∨
  ∃ e self1 w1,
    fill_cycle self w = (Raise e, self1, w1) ∧
    ¬ (datetime_in_range (clock w1 - _cache_timeout self1) ∧
       datetime_in_range
         (clock w1 - _cache_timeout self1 + timedelta_seconds 300)) ∧
    fill_cache self w = (Raise OverflowError, self1, w1).
Proof.
  destruct (fill_cycle self w) as [[[[]|e] self1] w1] eqn:E.
  - left. unfold fill_cache, try_except. by rewrite E.
  - rewrite (fill_cache_failed _ _ _ _ _ E).
    destruct (backoff_timestamp (clock w1) (_cache_timeout self1))
      as [backoff|e'] eqn:Eb; [by left|right].
    apply backoff_timestamp_Raise in Eb as [-> Hout].
    by exists e, self1, w1.
Qed.

Lemma bind_fill_read_result parameter self w :
  result_of ((fill_cache;; read_cache parameter) self w)
  = cached_field parameter
      (state_of ((fill_cache;; read_cache parameter) self w))
  ∨ result_of ((fill_cache;; read_cache parameter) self w)
    = Raise OverflowError.
Proof.
  rewrite M_bind_unfold.
  destruct (fill_cache_outcome self w) as [H|(e & self1 & w1 & _ & _ & H)].
  - destruct (fill_cache self w) as [[[[]|e] s1] w1]; [|discriminate H].
    left. by rewrite read_cache_run.
  - rewrite H. by right.
Qed.

(** X13. A link exception never reaches the caller of [fill_cache] or
    [parameter_value]. [fill_cache] returns, unless its fill cycle raised
    and the backoff date [now - ttl + 300 s] is outside what [datetime]
    can hold: then the handler raises [OverflowError] and the handle is
    left as the fill cycle left it. What [parameter_value] returns or
    raises is read off the cache as the call leaves it (a field of the
    reading, [KeyError] for a parameter the reading lacks, the exception
    "Could not read data" when there is no reading), or it is that
    [OverflowError], from the handler or from the freshness test. *)
Theorem parameter_value_result_from_cache
    (parameter : string) (read_cached : bool) (self : MiKettle) (w : World) :
  (result_of (fill_cache self w) = Ok () ∨
   ∃ e self1 w1,
     fill_cycle self w = (Raise e, self1, w1) ∧
     ¬ (datetime_in_range (clock w1 - _cache_timeout self1) ∧
        datetime_in_range
          (clock w1 - _cache_timeout self1 + timedelta_seconds 300)) ∧
     fill_cache self w = (Raise OverflowError, self1, w1)) ∧
  (result_of (parameter_value parameter read_cached self w)
   = cached_field parameter
       (state_of (parameter_value parameter read_cached self w))
   ∨ result_of (parameter_value parameter read_cached self w)
     = Raise OverflowError).
Proof.
  split; [apply fill_cache_outcome|].
  rewrite parameter_value_run.
  destruct (negb read_cached || bool_decide (_last_read self = None));
    [apply bind_fill_read_result|].
  destruct (datetime_sub (clock w) (_cache_timeout self)) as [limit|e] eqn:E.
  - destruct (match _last_read self with
              | Some last => limit >? last
              | None => false
              end); [apply bind_fill_read_result|by left].
  - apply datetime_sub_Raise in E as ->. by right.
Qed.

Lemma same_identity_refl s w : same_identity s w s w.
Proof. by unfold same_identity. Qed.

Lemma same_identity_trans s1 w1 s2 w2 s3 w3 :
  same_identity s1 w1 s2 w2 → same_identity s2 w2 s3 w3 →
  same_identity s1 w1 s3 w3.
Proof.
  unfold same_identity. intros (?&?&?&?&?) (?&?&?&?&?).
  repeat split; congruence.
Qed.

(** X14. The MAC, the reversed MAC, the product id, the token and the
    ttl of a handle are never changed: not by a notification, a
    connection, a handshake, a fill, a read or a clear. *)
Theorem identity_is_immutable (self : MiKettle) (w : World) :
  (∀ cHandle data,
     same_identity self w (state_of (handleNotification cHandle data self w))
       (world_of (handleNotification cHandle data self w))) ∧
  same_identity self w (state_of (connect self w)) (world_of (connect self w)) ∧
  same_identity self w (state_of (auth self w)) (world_of (auth self w)) ∧
  same_identity self w (state_of (fill_cache self w))
    (world_of (fill_cache self w)) ∧
  (∀ parameter read_cached,
     same_identity self w
       (state_of (parameter_value parameter read_cached self w))
       (world_of (parameter_value parameter read_cached self w))) ∧
  same_identity self w (state_of (clear_cache self w))
    (world_of (clear_cache self w)).
Proof.
  split; [|split; [|split; [|split; [|split]]]].
  - intros cHandle data.
    apply (post_handleNotification same_identity);
      first [ exact same_identity_refl | exact same_identity_trans
            | intros; by unfold same_identity ].
  - apply (post_connect same_identity);
      first [ exact same_identity_refl | exact same_identity_trans
            | intros; by unfold same_identity ].
  - apply (post_auth same_identity);
      first [ exact same_identity_refl | exact same_identity_trans
            | intros; by unfold same_identity ].
  - apply (post_fill_cache same_identity);
      first [ exact same_identity_refl | exact same_identity_trans
            | intros; by unfold same_identity ].
  - intros parameter read_cached.
    apply (post_parameter_value same_identity);
      first [ exact same_identity_refl | exact same_identity_trans
            | intros; by unfold same_identity ].
  - by rewrite clear_cache_run.
Qed.

(** X15. [parameter_value(_, False)] always runs a fill, which calls the
    peripheral, however fresh the cache is. *)
Theorem uncached_read_always_fills
    (parameter : string) (self : MiKettle) (w : World) :
  parameter_value parameter false self w
  = (fill_cache;; read_cache parameter) self w
  ∧ link_contacted w (world_of (parameter_value parameter false self w)).
Proof.
  assert (parameter_value parameter false self w
          = (fill_cache;; read_cache parameter) self w) as H
    by (apply parameter_value_fill; by left).
  split; [done|]. rewrite H. apply fill_then_read_contacts.
Qed.

(** X16. After a status notification that decodes to a reading, reads
    made within the ttl of the notification's arrival, at a time [now]
    for which [now - ttl] is a date [datetime] can hold, are served from
    that reading without a call to the peripheral: a field the reading
    has is returned, any other parameter raises [KeyError]. *)
Theorem decoded_reading_is_served
    (self : MiKettle) (w : World) (d : bytes) (res : gmap string pyval)
    (parameter : string) (w' : World) :
  _parse_data d = Ok res →
  clock w' - clock w ≤ _cache_timeout self →
  datetime_in_range (clock w' - _cache_timeout self) →
  parameter_value parameter true
    (state_of (handleNotification _HANDLE_STATUS (Some d) self w)) w'
  = (match res !! parameter with
     | Some v => Ok v
     | None => Raise KeyError
     end,
     state_of (handleNotification _HANDLE_STATUS (Some d) self w), w').
Proof.
  intros Hparse Hage Hrange. rewrite handleNotification_status, Hparse.
  cbn [state_of fst snd].
  rewrite (parameter_value_skip _ _ _ (clock w));
    [|reflexivity|exact Hrange|simpl; lia].
  reflexivity.
Qed.

Lemma decoded_reading_is_served_witness :
  _parse_data [1; 1; 0; 0; 65; 23; 0] = Ok sample_reading ∧
  clock (unreachable_link 500) - clock (unreachable_link 0)
  ≤ _cache_timeout default_kettle ∧
  datetime_in_range
    (clock (unreachable_link 500) - _cache_timeout default_kettle) ∧
  parameter_value MI_SET_TEMPERATURE true
    (state_of (handleNotification _HANDLE_STATUS (Some [1; 1; 0; 0; 65; 23; 0])
                 default_kettle (unreachable_link 0)))
    (unreachable_link 500)
  = (match sample_reading !! MI_SET_TEMPERATURE with
     | Some v => Ok v
     | None => Raise KeyError
     end,
     state_of (handleNotification _HANDLE_STATUS (Some [1; 1; 0; 0; 65; 23; 0])
                 default_kettle (unreachable_link 0)),
     unreachable_link 500).
Proof.
  pose proof parse_data_sample as H.
  assert (clock (unreachable_link 500) - clock (unreachable_link 0)
          ≤ _cache_timeout default_kettle) as H'
    by (vm_compute; discriminate).
  assert (datetime_in_range
            (clock (unreachable_link 500) - _cache_timeout default_kettle))
    as H'' by (by vm_compute).
  exact (conj H (conj H' (conj H''
           (decoded_reading_is_served default_kettle
              (unreachable_link 0) _ _ MI_SET_TEMPERATURE
              (unreachable_link 500) H H' H'')))).
Defined.

(** ** Running the methods over a scripted link *)

Lemma bind_modify {B} f (k : unit → M B) s w :
  (modify f ≫= k) s w = k () (f s) w.
Proof. reflexivity. Qed.

Lemma bind_get_self {B} (k : MiKettle → M B) s w :
  (get_self ≫= k) s w = k s s w.
Proof. reflexivity. Qed.

Lemma bind_mret {A B} (a : A) (k : A → M B) s w : (mret a ≫= k) s w = k a s w.
Proof. reflexivity. Qed.

Lemma bind_lift_Ok {A B} (r : result A) a (k : A → M B) s w :
  r = Ok a → (lift r ≫= k) s w = k a s w.
Proof. by intros ->. Qed.

Lemma bind_lift_Raise {A B} (r : result A) e (k : A → M B) s w :
  r = Raise e → (lift r ≫= k) s w = (Raise e, s, w).
Proof. by intros ->. Qed.

Lemma bind_Raise {A B} (m : M A) (k : A → M B) s w e s' w' :
  m s w = (Raise e, s', w') → (m ≫= k) s w = (Raise e, s', w').
Proof. intros H. by rewrite M_bind_unfold, H. Qed.

Lemma bind_Ok {A B} (m : M A) (k : A → M B) s w a s' w' :
  m s w = (Ok a, s', w') → (m ≫= k) s w = k a s' w'.
Proof. intros H. by rewrite M_bind_unfold, H. Qed.

Lemma M_bind_Ok_inv {A B} (m : M A) (k : A → M B) s w b s' w' :
  (m ≫= k) s w = (Ok b, s', w') →
  ∃ a s1 w1, m s w = (Ok a, s1, w1) ∧ k a s1 w1 = (Ok b, s', w').
Proof.
  rewrite M_bind_unfold. destruct (m s w) as [[[a|e] s1] w1]; [|discriminate].
  intros H. by exists a, s1, w1.
Qed.

Lemma link_call_quiet c s t el rest cs :
  link_call c s (mkWorld t (quiet el :: rest) cs)
  = (Ok (), s, mkWorld (t + el) rest (c :: cs)).
Proof. reflexivity. Qed.

Lemma link_call_unreachable c s t cs :
  link_call c s (mkWorld t [] cs) = (Raise BTLEException, s, mkWorld t [] (c :: cs)).
Proof. reflexivity. Qed.

Lemma link_call_notifying c s t el cHandle d rest cs :
  link_call c s (mkWorld t (notifying el cHandle d :: rest) cs)
  = handleNotification cHandle (Some d) s (mkWorld (t + el) rest (c :: cs)).
Proof.
  unfold link_call, notifying. cbn [pending notifications failure clock calls elapsed].
  cbn [for_each fst snd]. rewrite !M_bind_unfold.
  by destruct (handleNotification _ _ _ _) as [[[[]|e] s1] w1].
Qed.

Lemma handleNotification_challenge d s w ekey :
  _challenging s = true → generateEkey (_token s) d = Ok ekey →
  handleNotification _HANDLE_AUTH (Some d) s w
  = (Ok (), set_ekey (Some ekey) (set_challenging false s), w).
Proof.
  intros Hc He. unfold handleNotification.
  rewrite bool_decide_eq_true_2 by reflexivity.
  rewrite bind_get_self, Hc, bind_modify, (bind_lift_Ok _ ekey) by done.
  reflexivity.
Qed.

Lemma handleNotification_confirmation d s w ekey ok :
  _challenging s = false → _confirming s = true → _ekey s = Some ekey →
  checkConfirmation ekey d = Ok ok →
  handleNotification _HANDLE_AUTH (Some d) s w
  = (if ok then Ok ()
     else Raise (Exception "Unexpected response during confirmation."),
     set_confirming false s, w).
Proof.
  intros Hc Hf He Hok. unfold handleNotification.
  rewrite bool_decide_eq_true_2 by reflexivity.
  rewrite bind_get_self, Hc, Hf, bind_modify, He, (bind_lift_Ok _ ok) by done.
  by destruct ok.
Qed.

Lemma handleNotification_stray d s w :
  _challenging s = false → _confirming s = false →
  handleNotification _HANDLE_AUTH d s w = (Raise NameError, s, w).
Proof.
  intros Hc Hf. unfold handleNotification.
  rewrite bool_decide_eq_true_2 by reflexivity.
  by rewrite bind_get_self, Hc, Hf.
Qed.

Lemma cipher_Ok_nonempty key input out : cipher key input = Ok out → key ≠ [].
Proof.
  intros H ->. unfold cipher in H. rewrite _cipherInit_empty_key in H.
  discriminate H.
Qed.

Lemma auth_unfold s w :
  _authed s = false →
  auth s w
  = (peripheral_call getServiceByUUID;;
     link_call getDescriptors;;
     link_call descriptor_write;;
     modify (set_challenging true);;
     peripheral_call writeCharacteristic;;
     peripheral_call waitForNotifications;;
     modify (set_confirming true);;
     get_p;;
     self ← get_self;
     lift (match _ekey self with
           | Some ekey => challengeResponse ekey
           | None => Raise TypeError
           end);;
     link_call writeCharacteristic;;
     peripheral_call waitForNotifications;;
     peripheral_call readCharacteristic;;
     modify (set_authed true)) s w.
Proof. intros H. unfold auth. by rewrite bind_get_self, H. Qed.

Lemma bind_link_call_notifying {B} c (k : unit → M B) s t el cHandle d rest cs s' :
  handleNotification cHandle (Some d) s (mkWorld (t + el) rest (c :: cs))
  = (Ok (), s', mkWorld (t + el) rest (c :: cs)) →
  (link_call c ≫= k) s (mkWorld t (notifying el cHandle d :: rest) cs)
  = k () s' (mkWorld (t + el) rest (c :: cs)).
Proof. intros H. by rewrite M_bind_unfold, link_call_notifying, H. Qed.

Lemma bind_link_call_notifying_Raise {B} c (k : unit → M B) s t el cHandle d
    rest cs e s' :
  handleNotification cHandle (Some d) s (mkWorld (t + el) rest (c :: cs))
  = (Raise e, s', mkWorld (t + el) rest (c :: cs)) →
  (link_call c ≫= k) s (mkWorld t (notifying el cHandle d :: rest) cs)
  = (Raise e, s', mkWorld (t + el) rest (c :: cs)).
Proof. intros H. by rewrite M_bind_unfold, link_call_notifying, H. Qed.

(** With a [_p] on the handle, a call through it is the call. *)
Lemma bind_peripheral_call {B} c (k : unit → M B) s w :
  has_p s = true → (peripheral_call c ≫= k) s w = (link_call c ≫= k) s w.
Proof. intros H. by rewrite !M_bind_unfold, (peripheral_call_run _ _ _ H). Qed.

Lemma bind_get_p {B} (k : unit → M B) s w :
  has_p s = true → (get_p ≫= k) s w = k () s w.
Proof. intros H. by rewrite M_bind_unfold, (get_p_run _ _ H). Qed.

Ltac step_quiet :=
  rewrite (bind_Ok _ _ _ _ _ _ _ (link_call_quiet _ _ _ _ _ _)).

Ltac step_p Hp := rewrite bind_peripheral_call by exact Hp.

(** X17. The handshake, end to end. On a handle that has a peripheral
    [_p] (a [connect] has returned on it) and is not yet authenticated,
    when the four set-up calls pass quietly, the challenge
    arrives during the first wait, the response is written, the
    confirmation that arrives during the second wait is the confirmation
    constant encrypted under the derived key, and the version read
    passes, [auth] returns with the handle authenticated, holding the key
    derived from token and challenge, both phase flags cleared. *)
Theorem handshake_succeeds
    (s : MiKettle) (t e1 e2 e3 e4 e5 e6 e7 e8 : Z) (challenge ekey conf : bytes)
    (rest : list link_event) (cs : list ble_call) :
  has_p s = true →
  _authed s = false →
  generateEkey (_token s) challenge = Ok ekey →
  cipher ekey _CONFIRMATION = Ok conf →
  auth s (mkWorld t
            (quiet e1 :: quiet e2 :: quiet e3 :: quiet e4
             :: notifying e5 _HANDLE_AUTH challenge
             :: quiet e6
             :: notifying e7 _HANDLE_AUTH conf
             :: quiet e8 :: rest) cs)
  = (Ok (),
     set_authed true
       (set_confirming false
          (set_confirming true
             (set_ekey (Some ekey)
                (set_challenging false (set_challenging true s))))),
     mkWorld (t + e1 + e2 + e3 + e4 + e5 + e6 + e7 + e8) rest
       (readCharacteristic :: waitForNotifications :: writeCharacteristic
        :: waitForNotifications :: writeCharacteristic :: descriptor_write
        :: getDescriptors :: getServiceByUUID :: cs)).
Proof.
  intros Hp Hauth Hekey Hconf.
  pose proof (cipher_Ok_nonempty _ _ _ Hconf) as Hne.
  destruct (cipher_keystream ekey (length _SESSION_END) Hne) as (ks & _ & Hresp).
  specialize (Hresp _SESSION_END eq_refl).
  assert (checkConfirmation ekey conf = Ok true) as Hcheck.
  { destruct (cipher_involutive ekey _CONFIRMATION Hne _CONFIRMATION_bytes)
      as (c & Hc & _ & _ & Hback).
    rewrite Hconf in Hc. injection Hc as <-.
    unfold checkConfirmation. rewrite Hback, result_bind_Ok.
    by rewrite bool_decide_eq_true_2. }
  rewrite (auth_unfold _ _ Hauth).
  step_p Hp. do 3 step_quiet. rewrite bind_modify. step_p Hp. step_quiet.
  step_p Hp.
  erewrite bind_link_call_notifying
    by (apply (handleNotification_challenge _ _ _ ekey); [reflexivity|exact Hekey]).
  rewrite bind_modify, bind_get_p by exact Hp. rewrite bind_get_self.
  rewrite (bind_lift_Ok _ _ _ _ _ Hresp).
  step_quiet. step_p Hp.
  erewrite bind_link_call_notifying
    by (apply (handleNotification_confirmation _ _ _ ekey true);
        [reflexivity|reflexivity|reflexivity|exact Hcheck]).
  step_p Hp. step_quiet. reflexivity.
Qed.

Lemma handshake_succeeds_witness :
  connect default_kettle (mkWorld 0 [quiet 1] [])
  = (Ok (), connected_kettle, mkWorld (0 + 1) [] [Peripheral]) ∧
  has_p connected_kettle = true ∧
  _authed connected_kettle = false ∧
  generateEkey (_token connected_kettle) [1; 2; 3; 4]
  = Ok [91; 233; 192; 255; 139; 153; 165; 39; 38; 20; 84; 18] ∧
  (∃ conf,
     cipher [91; 233; 192; 255; 139; 153; 165; 39; 38; 20; 84; 18] _CONFIRMATION
     = Ok conf ∧
     _authed
       (state_of
          (auth connected_kettle
             (mkWorld 0
                (quiet 1 :: quiet 1 :: quiet 1 :: quiet 1
                 :: notifying 1 _HANDLE_AUTH [1; 2; 3; 4]
                 :: quiet 1
                 :: notifying 1 _HANDLE_AUTH conf
                 :: quiet 1 :: []) []))) = true).
Proof.
  assert (has_p connected_kettle = true) as H0 by reflexivity.
  assert (_authed connected_kettle = false) as H1 by reflexivity.
  assert (generateEkey (_token connected_kettle) [1; 2; 3; 4]
          = Ok [91; 233; 192; 255; 139; 153; 165; 39; 38; 20; 84; 18]) as H2
    by (vm_compute; reflexivity).
  refine (conj eq_refl (conj H0 (conj H1 (conj H2 _)))).
  destruct (cipher [91; 233; 192; 255; 139; 153; 165; 39; 38; 20; 84; 18]
              _CONFIRMATION) as [conf|e] eqn:H3.
  - exists conf. split; [reflexivity|].
    by rewrite (handshake_succeeds connected_kettle 0 1 1 1 1 1 1 1 1
                  [1; 2; 3; 4] _ conf [] [] H0 H1 H2 H3).
  - exfalso. vm_compute in H3. discriminate H3.
Defined.

(** X18. The handshake, on a handle that has a peripheral [_p], with a
    confirmation the check rejects: [auth] raises "Unexpected response
    during confirmation." during the second wait, the version is not read
    and the handle stays unauthenticated. *)
Theorem handshake_rejects_bad_confirmation
    (s : MiKettle) (t e1 e2 e3 e4 e5 e6 e7 : Z) (challenge ekey conf : bytes)
    (rest : list link_event) (cs : list ble_call) :
  has_p s = true →
  _authed s = false →
  generateEkey (_token s) challenge = Ok ekey →
  checkConfirmation ekey conf = Ok false →
  auth s (mkWorld t
            (quiet e1 :: quiet e2 :: quiet e3 :: quiet e4
             :: notifying e5 _HANDLE_AUTH challenge
             :: quiet e6
             :: notifying e7 _HANDLE_AUTH conf
             :: rest) cs)
  = (Raise (Exception "Unexpected response during confirmation."),
     set_confirming false
       (set_confirming true
          (set_ekey (Some ekey)
             (set_challenging false (set_challenging true s)))),
     mkWorld (t + e1 + e2 + e3 + e4 + e5 + e6 + e7) rest
       (waitForNotifications :: writeCharacteristic
        :: waitForNotifications :: writeCharacteristic :: descriptor_write
        :: getDescriptors :: getServiceByUUID :: cs))
  ∧ _authed (state_of
               (auth s (mkWorld t
                          (quiet e1 :: quiet e2 :: quiet e3 :: quiet e4
                           :: notifying e5 _HANDLE_AUTH challenge
                           :: quiet e6
                           :: notifying e7 _HANDLE_AUTH conf
                           :: rest) cs))) = false.
Proof.
  intros Hp Hauth Hekey Hcheck.
  assert (ekey ≠ []) as Hne.
  { intros ->. unfold checkConfirmation, cipher in Hcheck.
    rewrite _cipherInit_empty_key in Hcheck. discriminate Hcheck. }
  destruct (cipher_keystream ekey (length _SESSION_END) Hne) as (ks & _ & Hresp).
  specialize (Hresp _SESSION_END eq_refl).
  match goal with |- ?lhs = ?rhs ∧ _ => assert (lhs = rhs) as Hrun end.
  { rewrite (auth_unfold _ _ Hauth).
    step_p Hp. do 3 step_quiet. rewrite bind_modify. step_p Hp. step_quiet.
    step_p Hp.
    erewrite bind_link_call_notifying
      by (apply (handleNotification_challenge _ _ _ ekey);
          [reflexivity|exact Hekey]).
    rewrite bind_modify, bind_get_p by exact Hp. rewrite bind_get_self.
    rewrite (bind_lift_Ok _ _ _ _ _ Hresp).
    step_quiet. step_p Hp.
    apply bind_link_call_notifying_Raise.
    apply (handleNotification_confirmation _ _ _ ekey false);
      [reflexivity|reflexivity|reflexivity|exact Hcheck]. }
  split; [exact Hrun|]. rewrite Hrun. exact Hauth.
Qed.

Lemma handshake_rejects_bad_confirmation_witness :
  has_p connected_kettle = true ∧
  _authed connected_kettle = false ∧
  generateEkey (_token connected_kettle) [1; 2; 3; 4]
  = Ok [91; 233; 192; 255; 139; 153; 165; 39; 38; 20; 84; 18] ∧
  checkConfirmation [91; 233; 192; 255; 139; 153; 165; 39; 38; 20; 84; 18]
    [0; 0; 0; 0] = Ok false ∧
  _authed (state_of
             (auth connected_kettle
                (mkWorld 0
                   (quiet 1 :: quiet 1 :: quiet 1 :: quiet 1
                    :: notifying 1 _HANDLE_AUTH [1; 2; 3; 4]
                    :: quiet 1
                    :: notifying 1 _HANDLE_AUTH [0; 0; 0; 0]
                    :: []) []))) = false.
Proof.
  assert (has_p connected_kettle = true) as H0 by reflexivity.
  assert (_authed connected_kettle = false) as H1 by reflexivity.
  assert (generateEkey (_token connected_kettle) [1; 2; 3; 4]
          = Ok [91; 233; 192; 255; 139; 153; 165; 39; 38; 20; 84; 18]) as H2
    by (vm_compute; reflexivity).
  assert (checkConfirmation
            [91; 233; 192; 255; 139; 153; 165; 39; 38; 20; 84; 18]
            [0; 0; 0; 0] = Ok false) as H3
    by (vm_compute; reflexivity).
  exact (conj H0 (conj H1 (conj H2 (conj H3
           (proj2 (handshake_rejects_bad_confirmation connected_kettle
                     0 1 1 1 1 1 1 1 [1; 2; 3; 4] _ [0; 0; 0; 0] [] []
                     H0 H1 H2 H3)))))).
Defined.

(** X19. When no challenge arrives (the set-up calls and the first wait
    pass without a notification) on a handle that has a peripheral [_p]
    and holds no key, [auth] raises [TypeError] on computing the
    response, before anything is written back; both phase flags are left
    set. *)
Theorem handshake_without_challenge_raises
    (s : MiKettle) (t e1 e2 e3 e4 e5 : Z)
    (rest : list link_event) (cs : list ble_call) :
  has_p s = true → _authed s = false → _ekey s = None →
  auth s (mkWorld t
            (quiet e1 :: quiet e2 :: quiet e3 :: quiet e4 :: quiet e5 :: rest)
            cs)
  = (Raise TypeError,
     set_confirming true (set_challenging true s),
     mkWorld (t + e1 + e2 + e3 + e4 + e5) rest
       (waitForNotifications :: writeCharacteristic :: descriptor_write
        :: getDescriptors :: getServiceByUUID :: cs)).
Proof.
  intros Hp Hauth Hekey. rewrite (auth_unfold _ _ Hauth).
  step_p Hp. do 3 step_quiet. rewrite bind_modify.
  step_p Hp. step_quiet. step_p Hp. step_quiet.
  rewrite bind_modify, bind_get_p by exact Hp. rewrite bind_get_self.
  apply bind_Raise. cbn [_ekey set_confirming set_challenging].
  by rewrite Hekey.
Qed.

Lemma handshake_without_challenge_raises_witness :
  has_p connected_kettle = true ∧
  _authed connected_kettle = false ∧ _ekey connected_kettle = None ∧
  auth connected_kettle
    (mkWorld 0 (quiet 1 :: quiet 1 :: quiet 1 :: quiet 1 :: quiet 1 :: []) [])
  = (Raise TypeError,
     set_confirming true (set_challenging true connected_kettle),
     mkWorld (0 + 1 + 1 + 1 + 1 + 1) []
       (waitForNotifications :: writeCharacteristic :: descriptor_write
        :: getDescriptors :: getServiceByUUID :: [])).
Proof.
  assert (has_p connected_kettle = true) as H0 by reflexivity.
  assert (_authed connected_kettle = false) as H1 by reflexivity.
  assert (_ekey connected_kettle = None) as H2 by reflexivity.
  exact (conj H0 (conj H1 (conj H2
           (handshake_without_challenge_raises
              connected_kettle 0 1 1 1 1 1 [] [] H0 H1 H2)))).
Defined.

Lemma subscribeToData_quiet s t e1 e2 e3 rest cs :
  has_p s = true →
  subscribeToData s (mkWorld t (quiet e1 :: quiet e2 :: quiet e3 :: rest) cs)
  = (Ok (), s,
     mkWorld (t + e1 + e2 + e3) rest
       (descriptor_write :: getDescriptors :: getServiceByUUID :: cs)).
Proof.
  intros Hp. unfold subscribeToData.
  step_p Hp. do 2 step_quiet. apply link_call_quiet.
Qed.

Lemma fill_cycle_ready s w :
  _connected s = true → _authed s = true →
  fill_cycle s w = (subscribeToData;; peripheral_call waitForNotifications) s w.
Proof.
  intros Hc Ha. unfold fill_cycle.
  rewrite (bind_Ok _ _ _ _ _ _ _ (connect_connected s w Hc)).
  by rewrite (bind_Ok _ _ _ _ _ _ _ (auth_authed s w Ha)).
Qed.

(** X20. A fill on a connected, authenticated handle: when the three
    subscription calls pass and a status notification that decodes
    arrives during the wait, [fill_cache] stores the reading with the
    arrival time as its timestamp, after exactly four calls to the
    peripheral, and [parameter_value(_, False)] over the same link returns
    the requested field of that reading ([KeyError] for a parameter it
    lacks). *)
Theorem fill_stores_decoded_reading
    (s : MiKettle) (t e1 e2 e3 e4 : Z) (d : bytes) (res : gmap string pyval)
    (rest : list link_event) (cs : list ble_call) :
  _connected s = true → _authed s = true → _parse_data d = Ok res →
  fill_cache s
    (mkWorld t (quiet e1 :: quiet e2 :: quiet e3
                :: notifying e4 _HANDLE_STATUS d :: rest) cs)
  = (Ok (),
     set_last_read (Some (t + e1 + e2 + e3 + e4)) (set_cache (Some res) s),
     mkWorld (t + e1 + e2 + e3 + e4) rest
       (waitForNotifications :: descriptor_write :: getDescriptors
        :: getServiceByUUID :: cs))
  ∧ ∀ parameter,
      parameter_value parameter false s
        (mkWorld t (quiet e1 :: quiet e2 :: quiet e3
                    :: notifying e4 _HANDLE_STATUS d :: rest) cs)
      = (match res !! parameter with
         | Some v => Ok v
         | None => Raise KeyError
         end,
         set_last_read (Some (t + e1 + e2 + e3 + e4)) (set_cache (Some res) s),
         mkWorld (t + e1 + e2 + e3 + e4) rest
           (waitForNotifications :: descriptor_write :: getDescriptors
            :: getServiceByUUID :: cs)).
Proof.
  intros Hc Ha Hparse. pose proof (connected_has_p s Hc) as Hp.
  match goal with |- ?lhs = ?rhs ∧ _ => assert (lhs = rhs) as Hrun end.
  { unfold fill_cache, try_except. rewrite (fill_cycle_ready _ _ Hc Ha).
    rewrite (bind_Ok _ _ _ _ _ _ _ (subscribeToData_quiet _ _ _ _ _ _ _ Hp)).
    rewrite (peripheral_call_run _ _ _ Hp).
    by rewrite link_call_notifying, handleNotification_status, Hparse. }
  split; [exact Hrun|]. intros parameter.
  rewrite parameter_value_fill by by left.
  rewrite (bind_Ok _ _ _ _ _ _ _ Hrun). by rewrite read_cache_run.
Qed.

Lemma fill_stores_decoded_reading_witness :
  _connected (set_authed true (set_connected true default_kettle)) = true ∧
  _authed (set_authed true (set_connected true default_kettle)) = true ∧
  _parse_data [1; 1; 0; 0; 65; 23; 0] = Ok sample_reading ∧
  parameter_value MI_CURRENT_TEMPERATURE false
    (set_authed true (set_connected true default_kettle))
    (mkWorld 0 (quiet 1 :: quiet 1 :: quiet 1
                :: notifying 1 _HANDLE_STATUS [1; 1; 0; 0; 65; 23; 0] :: []) [])
  = (match sample_reading !! MI_CURRENT_TEMPERATURE with
     | Some v => Ok v
     | None => Raise KeyError
     end,
     set_last_read (Some (0 + 1 + 1 + 1 + 1))
       (set_cache (Some sample_reading)
          (set_authed true (set_connected true default_kettle))),
     mkWorld (0 + 1 + 1 + 1 + 1) []
       (waitForNotifications :: descriptor_write :: getDescriptors
        :: getServiceByUUID :: [])).
Proof.
  pose proof parse_data_sample as H.
  exact (conj eq_refl (conj eq_refl (conj H
           (proj2 (fill_stores_decoded_reading
                     (set_authed true (set_connected true default_kettle))
                     0 1 1 1 1 _ _ [] [] eq_refl eq_refl H)
              MI_CURRENT_TEMPERATURE)))).
Defined.

(** X21. A notification on the auth handle that arrives outside the
    handshake (neither phase flag set) makes the handler raise
    [NameError]; during the wait of a fill on a connected, authenticated
    handle this fails the fill. When the backoff date [now - ttl + 300 s]
    is one [datetime] can hold, the cache is kept, that date is stored
    as the timestamp and the handle is marked disconnected and
    unauthenticated; otherwise [fill_cache] raises [OverflowError] and
    the handle is left as it was. *)
Theorem stray_auth_notification_fails_fill
    (s : MiKettle) (t e1 e2 e3 e4 : Z) (d : bytes)
    (rest : list link_event) (cs : list ble_call) :
  _connected s = true → _authed s = true →
  _challenging s = false → _confirming s = false →
  handleNotification _HANDLE_AUTH (Some d) s (mkWorld t rest cs)
  = (Raise NameError, s, mkWorld t rest cs)
  ∧ (datetime_in_range (t + e1 + e2 + e3 + e4 - _cache_timeout s) →
     datetime_in_range
       (t + e1 + e2 + e3 + e4 - _cache_timeout s + timedelta_seconds 300) →
     fill_cache s
       (mkWorld t (quiet e1 :: quiet e2 :: quiet e3
                   :: notifying e4 _HANDLE_AUTH d :: rest) cs)
     = (Ok (),
        set_authed false
          (set_connected false
             (set_last_read
                (Some (t + e1 + e2 + e3 + e4 - _cache_timeout s
                       + timedelta_seconds 300)) s)),
        mkWorld (t + e1 + e2 + e3 + e4) rest
          (waitForNotifications :: descriptor_write :: getDescriptors
           :: getServiceByUUID :: cs)))
  ∧ (¬ (datetime_in_range (t + e1 + e2 + e3 + e4 - _cache_timeout s) ∧
        datetime_in_range
          (t + e1 + e2 + e3 + e4 - _cache_timeout s
           + timedelta_seconds 300)) →
     fill_cache s
       (mkWorld t (quiet e1 :: quiet e2 :: quiet e3
                   :: notifying e4 _HANDLE_AUTH d :: rest) cs)
     = (Raise OverflowError, s,
        mkWorld (t + e1 + e2 + e3 + e4) rest
          (waitForNotifications :: descriptor_write :: getDescriptors
           :: getServiceByUUID :: cs))).
Proof.
  intros Hc Ha Hch Hcf. pose proof (connected_has_p s Hc) as Hp.
  split; [by apply handleNotification_stray|].
  assert (fill_cycle s
            (mkWorld t (quiet e1 :: quiet e2 :: quiet e3
                        :: notifying e4 _HANDLE_AUTH d :: rest) cs)
          = (Raise NameError, s,
             mkWorld (t + e1 + e2 + e3 + e4) rest
               (waitForNotifications :: descriptor_write :: getDescriptors
                :: getServiceByUUID :: cs))) as Hfail.
  { rewrite (fill_cycle_ready _ _ Hc Ha).
    rewrite (bind_Ok _ _ _ _ _ _ _ (subscribeToData_quiet _ _ _ _ _ _ _ Hp)).
    rewrite (peripheral_call_run _ _ _ Hp).
    rewrite link_call_notifying. by apply handleNotification_stray. }
  split.
  - intros H1 H2.
    by rewrite (fill_cache_failed_in_range _ _ _ _ _ Hfail H1 H2).
  - intros Hout. rewrite (fill_cache_failed _ _ _ _ _ Hfail).
    cbn [clock].
    destruct (backoff_timestamp (t + e1 + e2 + e3 + e4) (_cache_timeout s))
      as [backoff|e'] eqn:E.
    + apply backoff_timestamp_Ok in E as (_ & H1 & H2).
      exfalso. by apply Hout.
    + apply backoff_timestamp_Raise in E as [-> _]. done.
Qed.

Lemma stray_auth_notification_fails_fill_witness :
  _connected (set_authed true (set_connected true default_kettle)) = true ∧
  _authed (set_authed true (set_connected true default_kettle)) = true ∧
  _challenging (set_authed true (set_connected true default_kettle)) = false ∧
  _confirming (set_authed true (set_connected true default_kettle)) = false ∧
  fill_cache (set_authed true (set_connected true default_kettle))
    (mkWorld 0 (quiet 1 :: quiet 1 :: quiet 1
                :: notifying 1 _HANDLE_AUTH [5] :: []) [])
  = (Ok (),
     set_authed false
       (set_connected false
          (set_last_read
             (Some (0 + 1 + 1 + 1 + 1
                    - _cache_timeout
                        (set_authed true (set_connected true default_kettle))
                    + timedelta_seconds 300))
             (set_authed true (set_connected true default_kettle)))),
     mkWorld (0 + 1 + 1 + 1 + 1) []
       (waitForNotifications :: descriptor_write :: getDescriptors
        :: getServiceByUUID :: [])).
Proof.
  refine (conj eq_refl (conj eq_refl (conj eq_refl (conj eq_refl
            (proj1 (proj2 (stray_auth_notification_fails_fill
                             (set_authed true
                                (set_connected true default_kettle))
                             0 1 1 1 1 [5] [] []
                             eq_refl eq_refl eq_refl eq_refl)) _ _)))));
    by vm_compute.
Defined.

(** X22. Whenever [auth] returns, the handle is authenticated, and from
    then on [auth] is a no-op: it returns at once, calls nothing and
    changes nothing. The same holds of [connect] and the connected
    flag. *)
Theorem auth_and_connect_are_idempotent (s s' : MiKettle) (w w' : World) :
  (auth s w = (Ok (), s', w') →
   _authed s' = true ∧ ∀ w'', auth s' w'' = (Ok (), s', w'')) ∧
  (connect s w = (Ok (), s', w') →
   _connected s' = true ∧ ∀ w'', connect s' w'' = (Ok (), s', w'')).
Proof.
  split.
  - intros H.
    assert (_authed s' = true) as Hs'.
    { destruct (_authed s) eqn:Ea.
      - rewrite (auth_authed _ _ Ea) in H. by injection H as <- _.
      - rewrite (auth_unfold _ _ Ea) in H.
        do 13 (apply M_bind_Ok_inv in H as (? & ? & ? & _ & H)).
        by injection H as <- _. }
    split; [done|]. intros w''. by apply auth_authed.
  - intros H.
    assert (_connected s' = true) as Hs'.
    { destruct (_connected s) eqn:Ec.
      - rewrite (connect_connected _ _ Ec) in H. by injection H as <- _.
      - unfold connect in H. rewrite bind_get_self, Ec in H. cbn [negb] in H.
        do 3 (apply M_bind_Ok_inv in H as (? & ? & ? & _ & H)).
        injection H as <- _. unfold _connected, set_connected, set_link.
        reflexivity. }
    split; [done|]. intros w''. by apply connect_connected.
Qed.

Lemma auth_and_connect_are_idempotent_witness :
  (connect default_kettle (mkWorld 0 [quiet 1] [])
   = (Ok (), set_connected true default_kettle, mkWorld (0 + 1) [] [Peripheral]) ∧
   _connected (set_connected true default_kettle) = true ∧
   ∀ w'', connect (set_connected true default_kettle) w''
          = (Ok (), set_connected true default_kettle, w'')) ∧
  (auth (set_authed true default_kettle) (mkWorld 0 [] [])
   = (Ok (), set_authed true default_kettle, mkWorld 0 [] []) ∧
   _authed (set_authed true default_kettle) = true ∧
   ∀ w'', auth (set_authed true default_kettle) w''
          = (Ok (), set_authed true default_kettle, w'')).
Proof.
  assert (connect default_kettle (mkWorld 0 [quiet 1] [])
          = (Ok (), set_connected true default_kettle,
             mkWorld (0 + 1) [] [Peripheral])) as H by reflexivity.
  assert (auth (set_authed true default_kettle) (mkWorld 0 [] [])
          = (Ok (), set_authed true default_kettle, mkWorld 0 [] [])) as H'
    by reflexivity.
  exact (conj (conj H (proj2 (auth_and_connect_are_idempotent _ _ _ _) H))
              (conj H' (proj1 (auth_and_connect_are_idempotent _ _ _ _) H'))).
Defined.

(** ** Name and firmware version *)

Lemma codes_join_chr reply : Forall is_byte reply → codes (join_chr reply) = reply.
Proof.
  induction 1 as [|n reply Hn _ IH]; [done|].
  cbn [join_chr codes]. rewrite IH. f_equal.
  rewrite N_ascii_embedding by (unfold is_byte in Hn; lia).
  unfold is_byte in Hn. lia.
Qed.

Lemma readCharacteristic_reply_quiet reply s t el rest cs :
  has_p s = true →
  readCharacteristic_reply reply s (mkWorld t (quiet el :: rest) cs)
  = (Ok reply, s, mkWorld (t + el) rest (readCharacteristic :: cs)).
Proof.
  intros Hp. unfold readCharacteristic_reply. step_p Hp. reflexivity.
Qed.

Lemma readCharacteristic_reply_unreachable reply s t cs :
  has_p s = true →
  readCharacteristic_reply reply s (mkWorld t [] cs)
  = (Raise BTLEException, s, mkWorld t [] (readCharacteristic :: cs)).
Proof.
  intros Hp. unfold readCharacteristic_reply. step_p Hp. reflexivity.
Qed.

(** X23. On a connected, authenticated handle [name] and
    [firmware_version] make one call to the peripheral and change
    nothing in the handle. A non-empty reply is returned as a string
    with one character per byte, the byte being the character's code; an
    empty reply raises an exception naming the handle and the MAC; and an
    exception of the link is not caught: it reaches the caller. *)
Theorem name_and_firmware_version_read
    (s : MiKettle) (t el : Z) (reply : bytes)
    (rest : list link_event) (cs : list ble_call) :
  _connected s = true → _authed s = true → Forall is_byte reply →
  name reply s (mkWorld t (quiet el :: rest) cs)
  = (if bool_decide (reply = [])
     then Raise (Exception
                   ("Could not read NAME using handle 20 from Mi Kettle "
                    +:+ _mac s))
     else Ok (join_chr reply),
     s, mkWorld (t + el) rest (readCharacteristic :: cs))
  ∧ firmware_version reply s (mkWorld t (quiet el :: rest) cs)
    = (if bool_decide (reply = [])
       then Raise (Exception
                     ("Could not read FIRMWARE_VERSION using handle 26 from Mi Kettle "
                      +:+ _mac s))
       else Ok (join_chr reply),
       s, mkWorld (t + el) rest (readCharacteristic :: cs))
  ∧ codes (join_chr reply) = reply
  ∧ name reply s (mkWorld t [] cs)
    = (Raise BTLEException, s, mkWorld t [] (readCharacteristic :: cs))
  ∧ firmware_version reply s (mkWorld t [] cs)
    = (Raise BTLEException, s, mkWorld t [] (readCharacteristic :: cs)).
Proof.
  intros Hc Ha Hb. pose proof (connected_has_p s Hc) as Hp.
  split; [|split; [|split; [by apply codes_join_chr|split]]].
  - unfold name.
    rewrite (bind_Ok _ _ _ _ _ _ _ (connect_connected _ _ Hc)).
    rewrite (bind_Ok _ _ _ _ _ _ _ (auth_authed _ _ Ha)).
    rewrite (bind_Ok _ _ _ _ _ _ _
               (readCharacteristic_reply_quiet _ _ _ _ _ _ Hp)).
    by destruct (bool_decide (reply = [])).
  - unfold firmware_version.
    rewrite (bind_Ok _ _ _ _ _ _ _ (connect_connected _ _ Hc)).
    rewrite (bind_Ok _ _ _ _ _ _ _ (auth_authed _ _ Ha)).
    rewrite (bind_Ok _ _ _ _ _ _ _
               (readCharacteristic_reply_quiet _ _ _ _ _ _ Hp)).
    by destruct (bool_decide (reply = [])).
  - unfold name.
    rewrite (bind_Ok _ _ _ _ _ _ _ (connect_connected _ _ Hc)).
    rewrite (bind_Ok _ _ _ _ _ _ _ (auth_authed _ _ Ha)).
    apply bind_Raise. by apply readCharacteristic_reply_unreachable.
  - unfold firmware_version.
    rewrite (bind_Ok _ _ _ _ _ _ _ (connect_connected _ _ Hc)).
    rewrite (bind_Ok _ _ _ _ _ _ _ (auth_authed _ _ Ha)).
    apply bind_Raise. by apply readCharacteristic_reply_unreachable.
Qed.

Lemma name_and_firmware_version_read_witness :
  _connected (set_authed true (set_connected true default_kettle)) = true ∧
  _authed (set_authed true (set_connected true default_kettle)) = true ∧
  Forall is_byte [77; 105] ∧
  name [77; 105] (set_authed true (set_connected true default_kettle))
    (mkWorld 0 (quiet 1 :: []) [])
  = (if bool_decide ([77; 105] = [])
     then Raise (Exception
                   ("Could not read NAME using handle 20 from Mi Kettle "
                    +:+ _mac (set_authed true
                                (set_connected true default_kettle))))
     else Ok (join_chr [77; 105]),
     set_authed true (set_connected true default_kettle),
     mkWorld (0 + 1) [] (readCharacteristic :: [])).
Proof.
  assert (Forall is_byte [77; 105]) as H
    by (repeat constructor; unfold is_byte; lia).
  exact (conj eq_refl (conj eq_refl (conj H
           (proj1 (name_and_firmware_version_read
                     (set_authed true (set_connected true default_kettle))
                     0 1 [77; 105] [] [] eq_refl eq_refl H))))).
Defined.

(** ** The peripheral and the constructor *)

Lemma has_p_set_connected b s : has_p s = true → has_p (set_connected b s) = true.
Proof.
  unfold has_p, set_connected, set_link. cbn.
  destruct b; [done|]. by destruct (_link s).
Qed.

Lemma has_p_assign_p s : has_p (assign_p s) = true.
Proof. unfold has_p, assign_p, set_link. cbn. by destruct (_link s). Qed.

Lemma keeps_p_handleNotification cHandle data :
  post keeps_p (handleNotification cHandle data).
Proof.
  apply post_handleNotification; unfold keeps_p;
    try done; eauto using has_p_set_connected, has_p_assign_p.
Qed.

Lemma keeps_p_auth : post keeps_p auth.
Proof.
  apply post_auth; unfold keeps_p;
    try done; eauto using has_p_set_connected, has_p_assign_p.
Qed.

Lemma keeps_p_fill_cache : post keeps_p fill_cache.
Proof.
  apply post_fill_cache; unfold keeps_p;
    try done; eauto using has_p_set_connected, has_p_assign_p.
Qed.

Lemma keeps_p_parameter_value parameter read_cached :
  post keeps_p (parameter_value parameter read_cached).
Proof.
  apply post_parameter_value; unfold keeps_p;
    try done; eauto using has_p_set_connected, has_p_assign_p.
Qed.

(** X24. The peripheral [_p] of a handle. A constructed handle has
    none, and is neither connected nor authenticated. Without one,
    [auth] on an unauthenticated handle and [subscribeToData] raise
    [AttributeError] before any call to the peripheral and before any
    flag is written. [connect], when it returns, leaves the handle with
    one, and no method takes it away again: not a notification, a
    handshake, a fill, a read or a clear. *)
Theorem peripheral_assigned_by_connect :
  (∀ mac product_id cache_timeout token self,
     __init__ mac product_id cache_timeout token = Ok self →
     has_p self = false ∧ _connected self = false ∧ _authed self = false) ∧
  (∀ s w, has_p s = false →
     (_authed s = false → auth s w = (Raise AttributeError, s, w)) ∧
     subscribeToData s w = (Raise AttributeError, s, w)) ∧
  (∀ s w s' w', connect s w = (Ok (), s', w') → has_p s' = true) ∧
  (∀ s w, has_p s = true →
     (∀ cHandle data,
        has_p (state_of (handleNotification cHandle data s w)) = true) ∧
     has_p (state_of (auth s w)) = true ∧
     has_p (state_of (fill_cache s w)) = true ∧
     (∀ parameter read_cached,
        has_p (state_of (parameter_value parameter read_cached s w)) = true) ∧
     has_p (state_of (clear_cache s w)) = true).
Proof.
  split; [|split; [|split]].
  - intros mac product_id cache_timeout token self Hinit.
    apply init_fields in Hinit as (reversed & ttl & _ & _ & ->). done.
  - intros s w Hp. split.
    + intros Ha. rewrite (auth_unfold _ _ Ha).
      apply bind_Raise. by apply peripheral_call_missing.
    + unfold subscribeToData. apply bind_Raise.
      by apply peripheral_call_missing.
  - intros s w s' w' H. destruct (_connected s) eqn:Ec.
    + rewrite (connect_connected _ _ Ec) in H. injection H as <- _.
      by apply connected_has_p.
    + unfold connect in H. rewrite bind_get_self, Ec in H. cbn [negb] in H.
      do 3 (apply M_bind_Ok_inv in H as (? & ? & ? & _ & H)).
      injection H as <- _. reflexivity.
  - intros s w Hp. split; [|split; [|split; [|split]]].
    + intros cHandle data.
      by apply (keeps_p_handleNotification cHandle data s w).
    + by apply (keeps_p_auth s w).
    + by apply (keeps_p_fill_cache s w).
    + intros parameter read_cached.
      by apply (keeps_p_parameter_value parameter read_cached s w).
    + by rewrite clear_cache_run.
Qed.

Lemma peripheral_assigned_by_connect_witness :
  __init__ _MAC 131 600 _TOKEN = Ok default_kettle ∧
  has_p default_kettle = false ∧
  auth default_kettle
    (mkWorld 0 (quiet 1 :: quiet 1 :: quiet 1 :: quiet 1 :: quiet 1 :: []) [])
  = (Raise AttributeError, default_kettle,
     mkWorld 0 (quiet 1 :: quiet 1 :: quiet 1 :: quiet 1 :: quiet 1 :: []) []) ∧
  subscribeToData default_kettle (mkWorld 0 (quiet 1 :: []) [])
  = (Raise AttributeError, default_kettle, mkWorld 0 (quiet 1 :: []) []) ∧
  connect default_kettle (mkWorld 0 (quiet 1 :: []) [])
  = (Ok (), connected_kettle, mkWorld (0 + 1) [] [Peripheral]) ∧
  has_p connected_kettle = true.
Proof.
  assert (__init__ _MAC 131 600 _TOKEN = Ok default_kettle) as Hinit
    by (vm_compute; reflexivity).
  destruct peripheral_assigned_by_connect as (Hnew & Hnone & Hconnect & _).
  destruct (Hnew _ _ _ _ _ Hinit) as (Hp & _ & Ha).
  assert (connect default_kettle (mkWorld 0 (quiet 1 :: []) [])
          = (Ok (), connected_kettle, mkWorld (0 + 1) [] [Peripheral])) as Hc
    by reflexivity.
  exact (conj Hinit (conj Hp
           (conj (proj1 (Hnone default_kettle _ Hp) Ha)
              (conj (proj2 (Hnone default_kettle _ Hp))
                 (conj Hc (Hconnect _ _ _ _ Hc)))))).
Defined.

Lemma timedelta_in_range s :
  -999999999 * 86400 ≤ s < 1000000000 * 86400 →
  timedelta s = Ok (timedelta_seconds s).
Proof.
  intros H. unfold timedelta. cbv zeta.
  replace ((- (999999999 * 86400000000) <=? timedelta_seconds s)
           && (timedelta_seconds s <? 1000000000 * 86400000000)) with true;
    [done|].
  symmetry. apply andb_true_iff. unfold timedelta_seconds.
  split; [apply Z.leb_le|apply Z.ltb_lt]; lia.
Qed.

Lemma timedelta_out_of_range s :
  ¬ (-999999999 * 86400 ≤ s < 1000000000 * 86400) →
  timedelta s = Raise OverflowError.
Proof.
  intros H. unfold timedelta. cbv zeta.
  replace ((- (999999999 * 86400000000) <=? timedelta_seconds s)
           && (timedelta_seconds s <? 1000000000 * 86400000000)) with false;
    [done|].
  symmetry. apply andb_false_iff. unfold timedelta_seconds.
  rewrite Z.leb_gt, Z.ltb_ge. lia.
Qed.

(** X25. The ttl a handle is built with. With a MAC that [reverseMac]
    accepts, [__init__] returns a handle holding [cache_timeout] seconds
    as its ttl, nothing cached and every flag down, when [timedelta] can
    hold that many seconds (from -999999999 days up to, not including,
    1000000000 days), and raises [OverflowError] otherwise. A MAC that
    [reverseMac] rejects raises before the ttl is looked at. *)
Theorem init_cache_timeout_range
    (mac : string) (product_id cache_timeout : Z) (token : bytes) :
  (∀ reversed, reverseMac mac = Ok reversed →
     (-999999999 * 86400 ≤ cache_timeout < 1000000000 * 86400 →
      __init__ mac product_id cache_timeout token
      = Ok (mkMiKettle mac reversed None (timedelta_seconds cache_timeout)
              None None false false NoPeripheral false product_id token)) ∧
     (¬ (-999999999 * 86400 ≤ cache_timeout < 1000000000 * 86400) →
      __init__ mac product_id cache_timeout token = Raise OverflowError)) ∧
  (∀ e, reverseMac mac = Raise e →
     __init__ mac product_id cache_timeout token = Raise e).
Proof.
  split.
  - intros reversed Hmac. unfold __init__. rewrite Hmac, result_bind_Ok.
    split; intros H.
    + by rewrite (timedelta_in_range _ H), result_bind_Ok.
    + by rewrite (timedelta_out_of_range _ H), result_bind_Raise.
  - intros e Hmac. unfold __init__. by rewrite Hmac, result_bind_Raise.
Qed.

Lemma init_cache_timeout_range_witness :
  reverseMac _MAC = Ok [0x7F; 0xF1; 0xC2; 0xDC; 0x11; 0x78] ∧
  __init__ _MAC 131 600 _TOKEN = Ok default_kettle ∧
  __init__ _MAC 131 70000000000 _TOKEN = Ok long_ttl_kettle ∧
  __init__ _MAC 131 (1000000000 * 86400) _TOKEN = Raise OverflowError.
Proof.
  assert (reverseMac _MAC = Ok [0x7F; 0xF1; 0xC2; 0xDC; 0x11; 0x78]) as H
    by (vm_compute; reflexivity).
  refine (conj H (conj _ (conj _ _))).
  - apply (proj1 (proj1 (init_cache_timeout_range _MAC 131 600 _TOKEN) _ H)).
    lia.
  - apply (proj1 (proj1 (init_cache_timeout_range _MAC 131 70000000000 _TOKEN)
                    _ H)).
    lia.
  - apply (proj2 (proj1 (init_cache_timeout_range _MAC 131
                           (1000000000 * 86400) _TOKEN) _ H)).
    lia.
Defined.
